(** * Workflow examples of llama_index: reflection, story crafting, multi-agent

    The three notebooks under [docs/docs/examples] drive the workflow engine
    of [llama_index.core.workflow]: steps consume one event and return the
    next one, a context store is shared by the steps, and the engine runs
    the steps until a [StopEvent] is returned.

    Part I embeds the code: the step bodies of the notebooks, and the engine
    they run on.  Part II states and proves the properties. *)

From Stdlib Require Import ZArith String List Bool Lia.
From stdpp Require Import gmap strings list fin_maps.
Import ListNotations.

Local Open Scope string_scope.
Local Open Scope Z_scope.
Local Open Scope list_scope.

(** ** Part I: the embedding *)

(** Line feed, for the prompt templates of the notebooks. *)
Definition nl : string := String (Ascii.ascii_of_nat 10) EmptyString.

(** The exceptions that end a run.  The first seven are the taxonomy of the
    engine; [PythonError] stands for an exception of the interpreter raised
    inside a step body ([KeyError], [IndexError], [UnboundLocalError], ...),
    named by its class. *)
Inductive error : Type :=
  | ConfigurationError
  | AmbiguousRouteError
  | IllegalHandoffError
  | ValidationError
  | TimeoutError
  | CancelledError
  | ModelError
  | PythonError (class : string).

(** What a finished run hands to its caller: the result of the [StopEvent],
    or a tagged failure. *)
Inductive outcome (Result : Type) : Type :=
  | Stopped (result : Result)
  | Failed (e : error).
Arguments Stopped {Result} result.
Arguments Failed {Result} e.

(** A cancelled run and a run that timed out are failures with their own tag. *)
Definition Cancelled {Result : Type} : outcome Result := Failed CancelledError.
Definition Timeout {Result : Type} : outcome Result := Failed TimeoutError.

(** The two reserved readings of an event: the result it carries when it is
    a [StopEvent], and the target it names when it is a handoff. *)
Class EventKind (Event Result : Type) : Type := {
  stop_result : Event -> option Result;
  handoff_target : Event -> option string
}.

Module Scheduler.
Section scheduler.
Context {Event Store Result : Type} `{EventKind Event Result}.

(** Modelled from the spec: the engine ([Workflow], [step], [Context] of
    [llama_index.core.workflow]) is imported by the notebooks and is not
    among the sources.  A step has a name, the event kinds it accepts (the
    annotation of its [ev] parameter), the steps it may hand off to, and a
    body from the store and the event to the store and either an exception
    or the events it returns. *)
Record Step : Type := {
  name : string;
  accepts : Event -> bool;
  can_handoff_to : list string;
  body : Store -> Event -> Store * (error + list Event)
}.

(** Modelled from the spec: one entry of the lifecycle trace of a run, that
    is, the step invoked, the event it consumed, and what it returned. *)
Definition invocation : Type := (string * Event * (error + list Event))%type.

(** Modelled from the spec: a run holds the pending-event queue (each event
    with the step that emitted it, [None] for the caller's [StartEvent]),
    the shared store, the terminal result slot, and a clock of elapsed time
    units.  [log], [processed] and [arrived] are the lifecycle trace of the
    handle: the invocations, the events dequeued and the events enqueued,
    each in order. *)
Record Run : Type := {
  queue : list (option string * Event);
  store : Store;
  result : option (outcome Result);
  log : list invocation;
  processed : list Event;
  arrived : list Event;
  clock : nat
}.

Variable steps : list Step.

(** Modelled from the spec: step 1 of the execution loop.  The [StartEvent]
    is the only event on the queue. *)
Definition start (ev : Event) (st : Store) : Run :=
  {| queue := [(None, ev)]; store := st; result := None;
     log := []; processed := []; arrived := [ev]; clock := 0 |}.

(** Modelled from the spec: the registered step of a given name. *)
Definition find_step (n : string) : option Step :=
  List.find (fun s => String.eqb (name s) n) steps.

(** Modelled from the spec: static routing, step 2 of the execution loop.
    The uniquely matching step is scheduled; several matching steps are an
    [AmbiguousRouteError]; an event kind no step accepts is what registration
    rejects with a [ConfigurationError]. *)
Definition resolve (ev : Event) : error + Step :=
  match List.filter (fun s => accepts s ev) steps with
  | [] => inl ConfigurationError
  | [s] => inr s
  | _ :: _ :: _ => inl AmbiguousRouteError
  end.

(** Modelled from the spec: the target a handoff names must be a
    registered step. *)
Definition lookup_target (tgt : string) : error + Step :=
  match find_step tgt with
  | Some t => inr t
  | None => inl ConfigurationError
  end.

(** Modelled from the spec: routing of one event.  A handoff goes to the
    step it names, provided the allow-list of the current step (the emitter
    of the event) has it, which is checked at handoff time; a handoff issued
    by the caller selects the root step.  Any other event is routed
    statically. *)
Definition route (sender : option string) (ev : Event) : error + Step :=
  match handoff_target ev with
  | Some tgt =>
      match sender with
      | Some cur =>
          match find_step cur with
          | Some c =>
              if existsb (String.eqb tgt) (can_handoff_to c)
              then lookup_target tgt
              else inl IllegalHandoffError
          | None => inl ConfigurationError
          end
      | None => lookup_target tgt
      end
  | None => resolve ev
  end.

(** Modelled from the spec: the result of the first [StopEvent] among the
    returned events. *)
Fixpoint first_stop (outs : list Event) : option Result :=
  match outs with
  | [] => None
  | ev :: rest =>
      match stop_result ev with
      | Some r => Some r
      | None => first_stop rest
      end
  end.

(** Modelled from the spec: steps 2 to 4 of the execution loop on a run that
    is not terminal.  The head of the queue is dequeued and routed, the body
    of the matched step runs, the returned events are appended to the tail
    in the order returned, and a [StopEvent] among them makes the run
    terminal.  An exception leaves the store as last written. *)
Definition dispatch (r : Run) : Run :=
  match queue r with
  | [] => r
  | (sender, ev) :: q =>
      match route sender ev with
      | inl e =>
          {| queue := q; store := store r; result := Some (Failed e);
             log := log r; processed := processed r ++ [ev];
             arrived := arrived r; clock := clock r |}
      | inr s =>
          let '(st, ret) := body s (store r) ev in
          match ret with
          | inl e =>
              {| queue := q; store := st; result := Some (Failed e);
                 log := log r ++ [(name s, ev, inl e)];
                 processed := processed r ++ [ev];
                 arrived := arrived r; clock := clock r |}
          | inr outs =>
              {| queue := q ++ List.map (fun o => (Some (name s), o)) outs;
                 store := st;
                 result := option_map Stopped (first_stop outs);
                 log := log r ++ [(name s, ev, inr outs)];
                 processed := processed r ++ [ev];
                 arrived := arrived r ++ outs; clock := clock r |}
          end
      end
  end.

(** Modelled from the spec: one iteration of the loop with time and
    cancellation left out.  The loop stops once the run is terminal. *)
Definition sched_step (r : Run) : Run :=
  match result r with
  | Some _ => r
  | None => dispatch r
  end.

(** Modelled from the spec: [n] iterations of a run that neither times out
    nor is cancelled. *)
Fixpoint run_steps (n : nat) (r : Run) : Run :=
  match n with
  | O => r
  | S n' => sched_step (run_steps n' r)
  end.

(** Modelled from the spec: what the environment contributes to one
    iteration of the loop.  Either the iteration takes [S d] units of time
    (awaiting the body, or waiting on an empty queue), or the caller cancels
    the run. *)
Inductive signal : Type :=
  | Elapse (d : nat)
  | CancelRequest.

(** Modelled from the spec: recording the outcome leaves the store, the
    queue and the trace as they are, so that they remain inspectable. *)
Definition finish (o : outcome Result) (r : Run) : Run :=
  {| queue := queue r; store := store r; result := Some o;
     log := log r; processed := processed r; arrived := arrived r;
     clock := clock r |}.

(** Modelled from the spec: [d] units of time pass. *)
Definition advance (d : nat) (r : Run) : Run :=
  {| queue := queue r; store := store r; result := result r;
     log := log r; processed := processed r; arrived := arrived r;
     clock := (clock r + d)%nat |}.

(** Modelled from the spec: the step relation of the engine, steps 2 to 5
    of the execution loop with cancellation.  A terminal run does nothing;
    a cancel request marks the run cancelled; a run whose cumulative
    duration has reached the configured timeout fails with [TimeoutError];
    otherwise one event is dispatched and time passes. *)
Definition tick (timeout : nat) (sig : signal) (r : Run) : Run :=
  match result r with
  | Some _ => r
  | None =>
      match sig with
      | CancelRequest => finish Cancelled r
      | Elapse d =>
          if (timeout <=? clock r)%nat then finish Timeout r
          else advance (S d) (dispatch r)
      end
  end.

(** Modelled from the spec: the run after its first [n] iterations, under
    the signals [sigs]. *)
Fixpoint run_ticks (timeout : nat) (sigs : nat -> signal) (n : nat) (r : Run) : Run :=
  match n with
  | O => r
  | S n' => tick timeout (sigs n') (run_ticks timeout sigs n' r)
  end.

(** Events leave the queue in the order they entered it. *)
Definition fifo (r : Run) : Prop :=
  arrived r = processed r ++ List.map snd (queue r).

(** An invocation is quiet when it returned events none of which is a
    [StopEvent]. *)
Definition quiet (i : invocation) : Prop :=
  match i with
  | (_, _, inr outs) => first_stop outs = None
  | (_, _, inl _) => False
  end.

(** What the last invocation of a finished run says about its outcome. *)
Definition ends_with (i : invocation) (o : outcome Result) : Prop :=
  match i with
  | (_, _, inr outs) => option_map Stopped (first_stop outs) = Some o
  | (_, _, inl e) => o = Failed e
  end.

(** While a run is going every invocation was quiet; once it is terminal at
    most the last one was not, and that one decided the outcome. *)
Definition stop_is_last (r : Run) : Prop :=
  match result r with
  | None => Forall quiet (log r)
  | Some o =>
      Forall quiet (log r)
      \/ exists pre i, log r = pre ++ [i] /\ Forall quiet pre /\ ends_with i o
  end.

End scheduler.

Arguments Step : clear implicits.
Arguments invocation : clear implicits.
Arguments Run : clear implicits.

End Scheduler.

(** ** The reflection workflow ([examples/workflow/reflection.ipynb]) *)

Module Reflection.

(** The pydantic models the output is validated against. *)
Record Car : Type := { brand : string; model : string; power : Z }.
Record CarCollection : Type := { cars : list Car }.

(** [StartEvent] holds the keyword arguments of [run]; [ExtractionDone] and
    [ValidationErrorEvent] are the two events of the notebook. *)
Inductive Event : Type :=
  | StartEvent (kwargs : gmap string string)
  | StopEvent (result : string)
  | ExtractionDone (output passage : string)
  | ValidationErrorEvent (error wrong_output passage : string).

#[global] Instance event_kind : EventKind Event string := {
  stop_result ev := match ev with StopEvent r => Some r | _ => None end;
  handoff_target _ := None
}.

(** The state a step can reach: the context store (this workflow keeps the
    integer [retries] in it) and the prompts sent to the model so far. *)
Record Context : Type := {
  store : gmap string Z;
  prompts : list string
}.

Definition EXTRACTION_PROMPT (passage schema : string) : string :=
  nl +:+ "Context information is below:" +:+ nl
  +:+ "---------------------" +:+ nl
  +:+ passage +:+ nl
  +:+ "---------------------" +:+ nl
  +:+ nl
  +:+ "Given the context information and not prior knowledge, create a JSON object from the information in the context." +:+ nl
  +:+ "The JSON object must follow the JSON schema:" +:+ nl
  +:+ schema +:+ nl
  +:+ nl.

Definition REFLECTION_PROMPT (wrong_answer error : string) : string :=
  nl +:+ "You already created this output previously:" +:+ nl
  +:+ "---------------------" +:+ nl
  +:+ wrong_answer +:+ nl
  +:+ "---------------------" +:+ nl
  +:+ nl
  +:+ "This caused the JSON decode error: " +:+ error +:+ nl
  +:+ nl
  +:+ "Try again, the response must contain only valid JSON code. Do not add any sentence before or after the JSON object." +:+ nl
  +:+ "Do not repeat the schema." +:+ nl.

(** Truth value of a string or [None], as [if not passage] tests it. *)
Definition truthy (v : option string) : bool :=
  match v with
  | Some s => negb (String.eqb s "")
  | None => false
  end.

Section workflow.

(** The class attribute [max_retries] (3 in the notebook). *)
Variable max_retries : Z.

(** The collaborators outside the repository: the model behind
    [llm.acomplete], answering the [n]-th call on a prompt ([None] when the
    call raises), [CarCollection.model_validate_json], which returns the
    parsed collection or raises with a message, and the text of
    [CarCollection.schema_json()]. *)
Variable acomplete : nat -> string -> option string.
Variable model_validate_json : string -> string + CarCollection.
Variable schema_json : string.

Definition set_retries (n : Z) (ctx : Context) : Context :=
  {| store := <["retries" := n]> (store ctx); prompts := prompts ctx |}.

Definition get_retries (ctx : Context) : Z :=
  default 0 (store ctx !! "retries").

(** The tail of [extract]: build the prompt, call the model, return
    [ExtractionDone]. *)
Definition complete (ctx : Context) (passage reflection_prompt : string)
  : Context * (error + list Event) :=
  let prompt := EXTRACTION_PROMPT passage schema_json in
  let prompt :=
    if negb (String.eqb reflection_prompt "")
    then prompt +:+ reflection_prompt else prompt in
  let ctx' := {| store := store ctx; prompts := prompts ctx ++ [prompt] |} in
  match acomplete (length (prompts ctx)) prompt with
  | Some output => (ctx', inr [ExtractionDone output passage])
  | None => (ctx', inl ModelError)
  end.

(** [ReflectionWorkflow.extract]. *)
Definition extract (ctx : Context) (ev : Event) : Context * (error + list Event) :=
  let current_retries := get_retries ctx in
  if max_retries <=? current_retries
  then (ctx, inr [StopEvent "Max retries reached"])
  else
    let ctx := set_retries (current_retries + 1) ctx in
    match ev with
    | StartEvent kwargs =>
        let passage := kwargs !! "passage" in
        if negb (truthy passage)
        then (ctx, inr [StopEvent "Please provide some text in input"])
        else complete ctx (default "" passage) ""
    | ValidationErrorEvent error wrong_output passage =>
        complete ctx passage (REFLECTION_PROMPT wrong_output error)
    | _ => (ctx, inl (PythonError "UnboundLocalError"))
    end.

(** [ReflectionWorkflow.validate].  The step takes no context; the message
    it prints is left out. *)
Definition validate (ctx : Context) (ev : Event) : Context * (error + list Event) :=
  match ev with
  | ExtractionDone output passage =>
      match model_validate_json output with
      | inl e => (ctx, inr [ValidationErrorEvent e output passage])
      | inr _ => (ctx, inr [StopEvent output])
      end
  | _ => (ctx, inl (PythonError "AttributeError"))
  end.

(** The two steps as the [@step] decorator registers them, with the event
    kinds their annotations accept. *)
Definition extract_step : Scheduler.Step Event Context :=
  {| Scheduler.name := "extract";
     Scheduler.accepts ev :=
       match ev with
       | StartEvent _ | ValidationErrorEvent _ _ _ => true
       | _ => false
       end;
     Scheduler.can_handoff_to := [];
     Scheduler.body := extract |}.

Definition validate_step : Scheduler.Step Event Context :=
  {| Scheduler.name := "validate";
     Scheduler.accepts ev :=
       match ev with ExtractionDone _ _ => true | _ => false end;
     Scheduler.can_handoff_to := [];
     Scheduler.body := validate |}.

Definition steps : list (Scheduler.Step Event Context) := [extract_step; validate_step].

Definition empty_context : Context := {| store := ∅; prompts := [] |}.

(** [w.run] with keyword arguments: the run starts on a [StartEvent] that
    holds them, with an empty store. *)
Definition run (kwargs : gmap string string) : Scheduler.Run Event Context string :=
  Scheduler.start (StartEvent kwargs) empty_context.

(** The output of the [i]-th call of the model in a run on [passage] in
    which every earlier output failed validation: the first prompt is the
    extraction prompt, each later one adds the reflection on the previous
    output and its error. *)
Definition validation_error (output : string) : string :=
  match model_validate_json output with inl e => e | inr _ => "" end.

Fixpoint nth_output (passage : string) (i : nat) : option string :=
  match i with
  | O => acomplete O (EXTRACTION_PROMPT passage schema_json)
  | S j =>
      match nth_output passage j with
      | Some prev =>
          acomplete i (EXTRACTION_PROMPT passage schema_json
                       +:+ REFLECTION_PROMPT prev (validation_error prev))
      | None => None
      end
  end.

Definition valid (output : string) : bool :=
  match model_validate_json output with inl _ => false | inr _ => true end.

(** An invocation of [extract] proceeds when it passes the ceiling test,
    that is, when it returns anything but the max-retries [StopEvent]. *)
Definition hit_ceiling (ret : error + list Event) : bool :=
  match ret with
  | inr [StopEvent r] => String.eqb r "Max retries reached"
  | _ => false
  end.

Definition proceeds (i : Scheduler.invocation Event) : bool :=
  let '(n, _, ret) := i in
  String.eqb n "extract" && negb (hit_ceiling ret).

(** The extraction attempts of a run, and the reflective ones among them
    (those that answer a [ValidationErrorEvent]). *)
Definition attempts (r : Scheduler.Run Event Context string) : list (Scheduler.invocation Event) :=
  List.filter proceeds (Scheduler.log r).

Definition reflective (i : Scheduler.invocation Event) : bool :=
  match i with
  | (_, ValidationErrorEvent _ _ _, _) => true
  | _ => false
  end.

(** The counter agrees with the trace: [retries] is the number of extraction
    attempts, no more prompts were sent than attempts were made, and the
    attempts stay within the ceiling. *)
Definition counted (r : Scheduler.Run Event Context string) : Prop :=
  get_retries (Scheduler.store r) = Z.of_nat (length (attempts r))
  /\ (length (prompts (Scheduler.store r)) <= length (attempts r))%nat
  /\ Z.of_nat (length (attempts r)) <= Z.max 0 max_retries.

(** The first invocation of a run on [kwargs] is [extract] on the
    [StartEvent], and it proceeds unless the ceiling is not positive. *)
Definition start_first (kwargs : gmap string string)
    (r : Scheduler.Run Event Context string) : Prop :=
  match Scheduler.log r with
  | [] =>
      Scheduler.result r = None ->
      Scheduler.queue r = [(None, StartEvent kwargs)]
  | i :: _ =>
      exists ret, i = ("extract", StartEvent kwargs, ret)
                  /\ (0 < max_retries -> hit_ceiling ret = false)
  end.


(** The event that triggers the [i]-th invocation of [extract] in a run on
    [kwargs] whose earlier outputs all failed validation. *)
Definition feed (kwargs : gmap string string) (passage : string) (i : nat)
  : option Event :=
  match i with
  | O => Some (StartEvent kwargs)
  | S j =>
      match nth_output passage j with
      | Some prev =>
          Some (ValidationErrorEvent (validation_error prev) prev passage)
      | None => None
      end
  end.

(** The run stands before its [i]-th extraction attempt (counting from 0). *)
Definition at_attempt (kwargs : gmap string string) (passage : string) (i : nat)
    (r : Scheduler.Run Event Context string) : Prop :=
  Scheduler.result r = None
  /\ get_retries (Scheduler.store r) = Z.of_nat i
  /\ length (prompts (Scheduler.store r)) = i
  /\ exists sender ev,
       Scheduler.queue r = [(sender, ev)] /\ feed kwargs passage i = Some ev.


End workflow.
(** A model whose first [k] answers are malformed and whose later answers
    are an empty collection, with a validator that tells them apart. *)
Definition dq : string := String (Ascii.ascii_of_nat 34) EmptyString.

Definition empty_collection : string := "{ " +:+ dq +:+ "cars" +:+ dq +:+ ": [] }".

Definition sample_llm (k : nat) (n : nat) (prompt : string) : option string :=
  if (n <? k)%nat then Some "{ cars: " else Some empty_collection.

Definition sample_validator (output : string) : string + CarCollection :=
  if String.eqb output empty_collection then inr {| cars := [] |}
  else inl "Invalid JSON".

Definition sample_kwargs : gmap string string :=
  {[ "passage" := "I own two cars: a Fiat Panda with 45Hp and a Honda Civic with 330Hp." ]}.

End Reflection.

(** ** The story workflow
    ([examples/workflow/human_in_the_loop_story_crafting.ipynb]) *)

Module Story.

Record Segment : Type := { plot : string; actions : list string }.

(** [Block]; the field [block_template] always holds [BLOCK_TEMPLATE]. *)
Record Block : Type := {
  id_ : string;
  segment : Segment;
  choice : option string
}.

Definition BLOCK_TEMPLATE (plot actions choice : string) : string :=
  nl +:+ "BLOCK" +:+ nl
  +:+ "===" +:+ nl
  +:+ "PLOT: " +:+ plot +:+ nl
  +:+ "ACTIONS: " +:+ actions +:+ nl
  +:+ "CHOICE: " +:+ choice +:+ nl.

(** [Block.__str__]. *)
Definition str (b : Block) : string :=
  BLOCK_TEMPLATE (plot (segment b))
                 (String.concat ", " (actions (segment b)))
                 (default "" (choice b)).

Definition running_story (blocks : list Block) : string :=
  String.concat nl (List.map str blocks).

(** The two prompt templates handed to [structured_predict]. *)
Inductive template : Type :=
  | SEGMENT_GENERATION_TEMPLATE
  | FINAL_SEGMENT_GENERATION_TEMPLATE.

(** [block.choice = human_input]. *)
Definition set_choice (human_input : string) (b : Block) : Block :=
  {| id_ := id_ b; segment := segment b; choice := Some human_input |}.

(** The text [prompt_human] shows. *)
Definition human_prompt (b : Block) : string :=
  nl +:+ "===" +:+ nl +:+ plot (segment b) +:+ nl +:+ nl
  +:+ "Choose your adventure:" +:+ nl +:+ nl
  +:+ String.concat nl (actions (segment b))
  +:+ nl +:+ nl.

(** A scripted model, identifier source and reader for the examples. *)
Definition sample_predict (t : template) (story : string) : Segment :=
  match t with
  | SEGMENT_GENERATION_TEMPLATE =>
      {| plot := "Aric finds a map hidden inside an old bookshop.";
         actions := ["Follow the map"; "Ask the bookshop owner"] |}
  | FINAL_SEGMENT_GENERATION_TEMPLATE =>
      {| plot := "Aric returns to Eldoria with the treasure."; actions := [] |}
  end.

Definition sample_uuid4 (n : nat) : string :=
  "block-" +:+ String (Ascii.ascii_of_nat (48 + n)) EmptyString.

Definition sample_input (prompt : string) : string := "Follow the map".

End Story.

(** The story workflow over a store with value semantics: [set] keeps a copy
    of what it is given and [get] hands out a copy, so that an object a step
    holds shares nothing with the store. *)
Module StoryValue.
Import Story.

Inductive Event : Type :=
  | StartEvent
  | StopEvent (result : list Block)
  | NewBlockEvent (block : Block)
  | HumanChoiceEvent (block_id : string).

Record Context : Type := {
  store : gmap string (list Block);
  uuids : nat
}.

Section workflow.
Variable max_steps : Z.

(** The collaborators: [llm.structured_predict] on a template and the
    running story, [uuid.uuid4] (the [n]-th identifier drawn), and the
    builtin [input]. *)
Variable structured_predict : template -> string -> Segment.
Variable uuid4 : nat -> string.
Variable input : string -> string.

Definition new_block (ctx : Context) (seg : Segment) : Block :=
  {| id_ := uuid4 (uuids ctx); segment := seg; choice := None |}.

(** [ChooseYourOwnAdventureWorkflow.create_segment]. *)
Definition create_segment (ctx : Context) (ev : Event) : Context * (error + list Event) :=
  let blocks := default [] (store ctx !! "blocks") in
  let story := running_story blocks in
  if Z.of_nat (length blocks) <? max_steps
  then
    let b := new_block ctx (structured_predict SEGMENT_GENERATION_TEMPLATE story) in
    let blocks := blocks ++ [b] in
    ({| store := <["blocks" := blocks]> (store ctx); uuids := S (uuids ctx) |},
     inr [NewBlockEvent b])
  else
    let b := new_block ctx (structured_predict FINAL_SEGMENT_GENERATION_TEMPLATE story) in
    ({| store := store ctx; uuids := S (uuids ctx) |},
     inr [StopEvent (blocks ++ [b])]).

(** [ChooseYourOwnAdventureWorkflow.prompt_human]. *)
Definition prompt_human (ctx : Context) (ev : Event) : Context * (error + list Event) :=
  match ev with
  | NewBlockEvent block =>
      let human_input := input (human_prompt block) in
      match store ctx !! "blocks" with
      | None => (ctx, inl (PythonError "ValueError"))
      | Some blocks =>
          let block := set_choice human_input block in
          match blocks with
          | [] => (ctx, inl (PythonError "IndexError"))
          | _ :: _ =>
              let blocks := <[Nat.pred (length blocks) := block]> blocks in
              ({| store := <["block" := blocks]> (store ctx); uuids := uuids ctx |},
               inr [HumanChoiceEvent (id_ block)])
          end
      end
  | _ => (ctx, inl (PythonError "AttributeError"))
  end.

(** The story the next [create_segment] reads from the store. *)
Definition story_read (ctx : Context) : string :=
  running_story (default [] (store ctx !! "blocks")).

End workflow.

(** [w.run()]: the run starts with an empty store. *)
Definition empty_context : Context := {| store := ∅; uuids := 0 |}.
End StoryValue.

(** The story workflow as Python runs it: blocks and lists are objects on a
    heap, events and the store hold references to them, and [get] hands out
    the stored reference itself. *)
Module StoryRef.
Import Story.

Abbreviation loc := nat.

Inductive object : Type :=
  | OBlock (b : Block)
  | OList (items : list loc).

Inductive Event : Type :=
  | StartEvent
  | StopEvent (result : loc)
  | NewBlockEvent (block : loc)
  | HumanChoiceEvent (block_id : string).

(** A new object takes the next free location of the heap. *)
Record Context : Type := {
  heap : list object;
  store : gmap string loc;
  uuids : nat
}.

Definition read_block (h : list object) (l : loc) : option Block :=
  match h !! l with
  | Some (OBlock b) => Some b
  | _ => None
  end.

Definition read_list (h : list object) (l : loc) : option (list loc) :=
  match h !! l with
  | Some (OList items) => Some items
  | _ => None
  end.

(** The blocks a list object holds, read through the heap. *)
Definition read_blocks (h : list object) (l : loc) : option (list Block) :=
  match read_list h l with
  | Some items => mapM (read_block h) items
  | None => None
  end.

(** An event as a reader sees it: every reference replaced by the object it
    points to. *)
Definition view (h : list object) (ev : Event) : option StoryValue.Event :=
  match ev with
  | StartEvent => Some StoryValue.StartEvent
  | StopEvent l => StoryValue.StopEvent <$> read_blocks h l
  | NewBlockEvent l => StoryValue.NewBlockEvent <$> read_block h l
  | HumanChoiceEvent i => Some (StoryValue.HumanChoiceEvent i)
  end.

Section workflow.
Variable max_steps : Z.
Variable structured_predict : template -> string -> Segment.
Variable uuid4 : nat -> string.
Variable input : string -> string.

(** [ctx.store.get("blocks", [])]: the stored list, or a fresh empty one. *)
Definition get_blocks (ctx : Context) : Context * loc :=
  match store ctx !! "blocks" with
  | Some l => (ctx, l)
  | None =>
      ({| heap := heap ctx ++ [OList []]; store := store ctx; uuids := uuids ctx |},
       length (heap ctx))
  end.

(** [ChooseYourOwnAdventureWorkflow.create_segment]. *)
Definition create_segment (ctx : Context) (ev : Event) : Context * (error + list Event) :=
  let '(ctx, blocks) := get_blocks ctx in
  match read_list (heap ctx) blocks, read_blocks (heap ctx) blocks with
  | Some items, Some bs =>
      let story := running_story bs in
      let final := negb (Z.of_nat (length items) <? max_steps) in
      let seg :=
        structured_predict
          (if final then FINAL_SEGMENT_GENERATION_TEMPLATE
           else SEGMENT_GENERATION_TEMPLATE) story in
      let b := length (heap ctx) in
      let h := heap ctx
               ++ [OBlock {| id_ := uuid4 (uuids ctx); segment := seg; choice := None |}] in
      let h := <[blocks := OList (items ++ [b])]> h in
      if final
      then ({| heap := h; store := store ctx; uuids := S (uuids ctx) |},
            inr [StopEvent blocks])
      else ({| heap := h; store := <["blocks" := blocks]> (store ctx);
               uuids := S (uuids ctx) |},
            inr [NewBlockEvent b])
  | _, _ => (ctx, inl (PythonError "TypeError"))
  end.

(** [ChooseYourOwnAdventureWorkflow.prompt_human]. *)
Definition prompt_human (ctx : Context) (ev : Event) : Context * (error + list Event) :=
  match ev with
  | NewBlockEvent block =>
      match read_block (heap ctx) block with
      | None => (ctx, inl (PythonError "AttributeError"))
      | Some b =>
          let human_input := input (human_prompt b) in
          match store ctx !! "blocks" with
          | None => (ctx, inl (PythonError "ValueError"))
          | Some blocks =>
              let h := <[block := OBlock (set_choice human_input b)]> (heap ctx) in
              match read_list h blocks with
              | None | Some [] =>
                  ({| heap := h; store := store ctx; uuids := uuids ctx |},
                   inl (PythonError "IndexError"))
              | Some items =>
                  let h := <[blocks := OList (<[Nat.pred (length items) := block]> items)]> h in
                  ({| heap := h; store := <["block" := blocks]> (store ctx);
                      uuids := uuids ctx |},
                   inr [HumanChoiceEvent (id_ b)])
              end
          end
      end
  | _ => (ctx, inl (PythonError "AttributeError"))
  end.

(** The story the next [create_segment] reads from the store. *)
Definition story_read (ctx : Context) : option string :=
  match store ctx !! "blocks" with
  | Some l => running_story <$> read_blocks (heap ctx) l
  | None => Some (running_story [])
  end.

End workflow.

(** [w.run()]: the run starts with an empty store and no object. *)
Definition empty_context : Context := {| heap := []; store := ∅; uuids := 0 |}.
End StoryRef.

(** ** The multi-agent workflow ([examples/agent/agent_workflow_multi.ipynb]) *)

Module MultiAgent.

(** What the workflow keeps under [ctx_state["state"]]: texts (the report,
    the review) and the dictionary of research notes. *)
Inductive value : Type :=
  | Text (s : string)
  | Notes (d : gmap string string).

(** The context store: [ctx_state] maps ["state"] to the workflow state. *)
Abbreviation State := (gmap string (gmap string value)).

(** How the body of a [with] block ends. *)
Inductive exit_path (A : Type) : Type :=
  | Returns (a : A)
  | Raises (e : error).
Arguments Returns {A} a.
Arguments Raises {A} e.

(** Modelled from the spec: what the exit of a scoped edit does with the
    snapshot when the body raised.  The spec guarantees commit-or-discard on
    every exit path and does not say which of the two an exception gets. *)
Inductive exit_policy : Type :=
  | CommitOnRaise
  | DiscardOnRaise.

(** Modelled from the spec: [ctx.store.edit_state()] is a method of the
    engine's store and is not among the sources.  Entering the scope takes a
    snapshot of the state and hands it to the body. *)
Definition enter (st : State) : State := st.

(** Modelled from the spec: committing installs the snapshot as the body
    left it. *)
Definition commit (snapshot : State) (st : State) : State := snapshot.

(** Modelled from the spec: discarding keeps the state as it was when the
    scope was entered. *)
Definition discard (snapshot : State) (st : State) : State := st.

Section store.

(** The side the store takes when the body of a scope raises. *)
Variable on_raise : exit_policy.

(** Modelled from the spec: the [async with] block over [edit_state].  A
    body that returns is committed; a body that raises is committed or
    discarded as [on_raise] says, and the exception goes on to the caller. *)
Definition edit_state {A : Type} (scope : State -> State * exit_path A) (st : State)
  : State * exit_path A :=
  let snapshot := enter st in
  let '(snapshot, out) := scope snapshot in
  match out with
  | Returns _ => (commit snapshot st, out)
  | Raises _ =>
      match on_raise with
      | CommitOnRaise => (commit snapshot st, out)
      | DiscardOnRaise => (discard snapshot st, out)
      end
  end.

(** Modelled from the spec: [scoped_edit(key)], the scoped edit of the one
    value stored under [key]; a key that is absent raises [KeyError]. *)
Definition scoped_edit {A : Type} (key : string)
    (scope : gmap string value -> gmap string value * exit_path A) (st : State)
  : State * exit_path A :=
  edit_state
    (fun ctx_state =>
       match ctx_state !! key with
       | Some v => let '(v, out) := scope v in (<[key := v]> ctx_state, out)
       | None => (ctx_state, Raises (PythonError "KeyError"))
       end) st.

(** [ctx_state["state"][key] = v]. *)
Definition set_item (key : string) (v : value) (state : gmap string value)
  : gmap string value * exit_path unit :=
  (<[key := v]> state, Returns tt).

(** The body of the [with] block of [record_notes]. *)
Definition record_notes_scope (notes notes_title : string) (state : gmap string value)
  : gmap string value * exit_path unit :=
  let state :=
    match state !! "research_notes" with
    | None => <["research_notes" := Notes ∅]> state
    | Some _ => state
    end in
  match state !! "research_notes" with
  | Some (Notes d) =>
      (<["research_notes" := Notes (<[notes_title := notes]> d)]> state, Returns tt)
  | _ => (state, Raises (PythonError "TypeError"))
  end.

(** The tools.  Each returns its message once the scope is left. *)
Definition tool_result (msg : string) (r : State * exit_path unit) : State * exit_path string :=
  match r with
  | (st, Returns _) => (st, Returns msg)
  | (st, Raises e) => (st, Raises e)
  end.

Definition record_notes (notes notes_title : string) (st : State) : State * exit_path string :=
  tool_result "Notes recorded."
    (scoped_edit "state" (record_notes_scope notes notes_title) st).

Definition write_report (report_content : string) (st : State) : State * exit_path string :=
  tool_result "Report written."
    (scoped_edit "state" (set_item "report_content" (Text report_content)) st).

Definition review_report (review : string) (st : State) : State * exit_path string :=
  tool_result "Report reviewed."
    (scoped_edit "state" (set_item "review" (Text review)) st).

End store.

(** [ctx.store.get("state")], then one of its entries. *)
Definition get_state (key : string) (st : State) : option value :=
  match st !! "state" with
  | Some state => state !! key
  | None => None
  end.

(** [initial_state] of the [AgentWorkflow]. *)
Definition initial_state : State :=
  {[ "state" :=
       {[ "research_notes" := Notes ∅;
          "report_content" := Text "Not written yet.";
          "review" := Text "Review required." ]} ]}.

(** Modelled from the spec: the events of an agent workflow, which are
    classes of the engine.  They are the user message, the final answer, and
    the handoff an agent asks for, with the target and a free-text reason. *)
Inductive Event : Type :=
  | StartEvent (user_msg : string)
  | StopEvent (result : string)
  | Handoff (to_agent reason : string).

#[global] Instance event_kind : EventKind Event string := {
  stop_result ev := match ev with StopEvent r => Some r | _ => None end;
  handoff_target ev := match ev with Handoff to_agent _ => Some to_agent | _ => None end
}.

(** [FunctionAgent]: the name, the tools and the allow-list of handoffs. *)
Record FunctionAgent : Type := {
  name : string;
  tools : list string;
  can_handoff_to : list string
}.

Definition research_agent : FunctionAgent :=
  {| name := "ResearchAgent";
     tools := ["search_web"; "record_notes"];
     can_handoff_to := ["WriteAgent"] |}.

Definition write_agent : FunctionAgent :=
  {| name := "WriteAgent";
     tools := ["write_report"];
     can_handoff_to := ["ReviewAgent"; "ResearchAgent"] |}.

Definition review_agent : FunctionAgent :=
  {| name := "ReviewAgent";
     tools := ["review_report"];
     can_handoff_to := ["WriteAgent"] |}.

Definition agents : list FunctionAgent := [research_agent; write_agent; review_agent].

Section workflow.

(** What an agent does with an event is decided by its model: the tools it
    calls on the state, and the event it answers with. *)
Variable agent_turn : string -> State -> Event -> State * (error + list Event).

(** Modelled from the spec: an agent is a step that accepts the user message
    when it is the root agent, and is otherwise reached by handoff only. *)
Definition agent_step (root_agent : string) (a : FunctionAgent) : Scheduler.Step Event State :=
  {| Scheduler.name := name a;
     Scheduler.accepts ev :=
       match ev with
       | StartEvent _ => String.eqb (name a) root_agent
       | _ => false
       end;
     Scheduler.can_handoff_to := can_handoff_to a;
     Scheduler.body := agent_turn (name a) |}.

(** [AgentWorkflow(agents=[...], root_agent=research_agent.name, ...)]. *)
Definition agent_workflow : list (Scheduler.Step Event State) :=
  List.map (agent_step (name research_agent)) agents.

End workflow.
(** Two scripted workflows for the examples below: each agent answers any
    event with one fixed event.  In the first the research agent hands off
    to the writer, who stops; in the second the research agent tries to hand
    off to the reviewer, which its allow-list does not permit. *)
Definition scripted (script : string -> Event) (agent : string) (st : State) (ev : Event)
  : State * (error + list Event) :=
  (st, inr [script agent]).

Definition legal_script (agent : string) : Event :=
  if String.eqb agent "ResearchAgent"
  then Handoff "WriteAgent" "The notes are recorded."
  else StopEvent "The report is written.".

Definition illegal_script (agent : string) : Event :=
  if String.eqb agent "ResearchAgent"
  then Handoff "ReviewAgent" "Skip the writer."
  else StopEvent "The report is reviewed.".

Definition sample_run (script : string -> Event) (n : nat)
  : Scheduler.Run Event State string :=
  Scheduler.run_ticks (agent_workflow (scripted script)) 120
    (fun _ => Scheduler.Elapse 0) n
    (Scheduler.start (StartEvent "Write me a report on the history of the internet.")
       initial_state).

End MultiAgent.

(** ** Runs of the reflection workflow *)

Module ReflectionRun.
Import Reflection.

Section run.
Variable model_validate_json : string -> string + CarCollection.

(** The results a caller of [w.run] can be handed: one of the two messages
    of [extract], or an output that [validate] let through. *)
Definition expected_result (res : string) : Prop :=
  res = "Max retries reached"
  \/ res = "Please provide some text in input"
  \/ valid model_validate_json res = true.

Definition expected_outcome (o : outcome string) : Prop :=
  match o with
  | Stopped res => expected_result res
  | Failed e => e = ModelError \/ e = TimeoutError \/ e = CancelledError
  end.

(** An event of a run on [kwargs] is justified when it carries the passage
    of the [StartEvent] and, for a [ValidationErrorEvent], an output that
    fails validation together with the error it fails with. *)
Definition justified (kwargs : gmap string string) (ev : Event) : Prop :=
  match ev with
  | StartEvent kw => kw = kwargs
  | ExtractionDone _ passage => kwargs !! "passage" = Some passage
  | ValidationErrorEvent e wrong_output passage =>
      kwargs !! "passage" = Some passage
      /\ model_validate_json wrong_output = inl e
  | StopEvent _ => True
  end.

(** A prompt of a run on [kwargs]: the extraction prompt for the passage,
    alone or followed by the reflection on a rejected output. *)
Definition well_formed_prompt (schema_json : string) (kwargs : gmap string string)
    (prompt : string) : Prop :=
  exists passage,
    kwargs !! "passage" = Some passage
    /\ (prompt = EXTRACTION_PROMPT passage schema_json
        \/ exists wrong_output e,
             model_validate_json wrong_output = inl e
             /\ prompt = EXTRACTION_PROMPT passage schema_json
                         +:+ REFLECTION_PROMPT wrong_output e).

End run.

(** The run stands before an invocation of [extract] with the counter at
    [i] or more, unless it is over. *)
Definition before_extract (i : nat) (r : Scheduler.Run Event Context string) : Prop :=
  (exists o, Scheduler.result r = Some o)
  \/ (Scheduler.result r = None
      /\ Z.of_nat i <= get_retries (Scheduler.store r)
      /\ exists sender ev,
           Scheduler.queue r = [(sender, ev)]
           /\ ((exists kwargs, ev = StartEvent kwargs)
               \/ exists e o p, ev = ValidationErrorEvent e o p)).

(** A model whose first [k] answers are malformed and whose next call
    raises. *)
Definition failing_llm (k : nat) (n : nat) (prompt : string) : option string :=
  if (n <? k)%nat then Some "{ cars: " else None.

End ReflectionRun.


(** ** Runs of the story workflow *)

Module StoryRun.
Import Story StoryRef.

#[global] Instance event_kind : EventKind Event nat := {
  stop_result ev := match ev with StopEvent l => Some l | _ => None end;
  handoff_target _ := None
}.

(** The blocks a step finds under "blocks", an empty list when the key is
    not set. *)
Definition blocks_of (ctx : Context) : option (list Block) :=
  match store ctx !! "blocks" with
  | Some l => read_blocks (heap ctx) l
  | None => Some []
  end.

Section workflow.
Variable max_steps : Z.
Variable structured_predict : template -> string -> Segment.
Variable uuid4 : nat -> string.
Variable input : string -> string.

(** The two steps as the [@step] decorator registers them, with the event
    kinds their annotations accept. *)
Definition create_segment_step : Scheduler.Step Event Context :=
  {| Scheduler.name := "create_segment";
     Scheduler.accepts ev :=
       match ev with
       | StartEvent | HumanChoiceEvent _ => true
       | _ => false
       end;
     Scheduler.can_handoff_to := [];
     Scheduler.body := create_segment max_steps structured_predict uuid4 |}.

Definition prompt_human_step : Scheduler.Step Event Context :=
  {| Scheduler.name := "prompt_human";
     Scheduler.accepts ev :=
       match ev with NewBlockEvent _ => true | _ => false end;
     Scheduler.can_handoff_to := [];
     Scheduler.body := prompt_human input |}.

Definition steps : list (Scheduler.Step Event Context) :=
  [create_segment_step; prompt_human_step].

(** [w.run()]. *)
Definition run : Scheduler.Run Event Context nat :=
  Scheduler.start StartEvent empty_context.

(** A story as the workflow builds it: every block carries the answer the
    reader gave to its prompt, and its segment was generated from the
    blocks before it, choices included. *)
Definition told (bs : list Block) : Prop :=
  forall i b, bs !! i = Some b ->
    choice b = Some (input (human_prompt b))
    /\ segment b =
         structured_predict SEGMENT_GENERATION_TEMPLATE (running_story (take i bs)).

(** The run stands between two rounds, with [k] blocks told. *)
Definition between_rounds (k : nat) (r : Scheduler.Run Event Context nat) : Prop :=
  Scheduler.result r = None
  /\ (exists sender ev,
        Scheduler.queue r = [(sender, ev)]
        /\ (ev = StartEvent \/ exists i, ev = HumanChoiceEvent i))
  /\ exists bs,
       blocks_of (Scheduler.store r) = Some bs /\ length bs = k /\ told bs.

End workflow.

(** A context in which the list under "blocks" is empty although a block
    exists, for the examples. *)
Definition sample_block : Block :=
  {| id_ := "block-0";
     segment := sample_predict SEGMENT_GENERATION_TEMPLATE "";
     choice := None |}.

Definition orphan_context : Context :=
  {| heap := [OBlock sample_block; OList []];
     store := {[ "blocks" := 1%nat ]};
     uuids := 1 |}.

End StoryRun.


(** ** Tool calls of the multi-agent workflow *)

Module AgentTools.
Import MultiAgent.

(** A call of one of the three tools that keep state, with the arguments
    the model of the agent chose. *)
Inductive tool_call : Type :=
  | RecordNotes (notes notes_title : string)
  | WriteReport (report_content : string)
  | ReviewReport (review : string).

Section calls.

(** The side the store takes when the body of a scope raises. *)
Variable on_raise : exit_policy.

Definition call (c : tool_call) (st : State) : State * exit_path string :=
  match c with
  | RecordNotes notes notes_title => record_notes on_raise notes notes_title st
  | WriteReport report_content => write_report on_raise report_content st
  | ReviewReport review => review_report on_raise review st
  end.

(** The calls of a run, one after the other on the shared state, with what
    each of them returned. *)
Fixpoint call_all (cs : list tool_call) (st : State) : State * list (exit_path string) :=
  match cs with
  | [] => (st, [])
  | c :: cs =>
      let '(st, out) := call c st in
      let '(st, outs) := call_all cs st in
      (st, out :: outs)
  end.

End calls.

(** What a history of calls amounts to: the message of each tool, the notes
    by title (a later note replaces an earlier one of the same title), and
    the last report and the last review. *)
Definition message (c : tool_call) : exit_path string :=
  match c with
  | RecordNotes _ _ => Returns "Notes recorded."
  | WriteReport _ => Returns "Report written."
  | ReviewReport _ => Returns "Report reviewed."
  end.

Fixpoint notes_after (cs : list tool_call) (d : gmap string string) : gmap string string :=
  match cs with
  | [] => d
  | RecordNotes notes notes_title :: cs => notes_after cs (<[notes_title := notes]> d)
  | _ :: cs => notes_after cs d
  end.

Fixpoint report_after (cs : list tool_call) (report : string) : string :=
  match cs with
  | [] => report
  | WriteReport report_content :: cs => report_after cs report_content
  | _ :: cs => report_after cs report
  end.

Fixpoint review_after (cs : list tool_call) (review : string) : string :=
  match cs with
  | [] => review
  | ReviewReport r :: cs => review_after cs r
  | _ :: cs => review_after cs review
  end.

End AgentTools.


(** ** The event printer of the multi-agent notebook *)

Module Stream.

(** An event of [handler.stream_events()], as far as the loop of the
    notebook looks at it: the attribute [current_agent_name] when the event
    has one, and the class of the event with the fields that are printed
    (dictionaries and tool outputs as the text [print] shows). *)
Inductive kind : Type :=
  | AgentOutput (content : string) (tool_calls : list string)
  | ToolCallResult (tool_name tool_kwargs tool_output : string)
  | ToolCall (tool_name tool_kwargs : string)
  | OtherEvent.

Record event : Type := {
  current_agent_name : option string;
  event_kind : kind
}.

(** What one branch of the loop prints: the banner of an agent, the output
    of an agent, the tools it plans to use, the result of a tool, a call of
    a tool. *)
Inductive printed : Type :=
  | Banner (agent : string)
  | Output (content : string)
  | Planning (tools : list string)
  | ToolResult (tool_name tool_kwargs tool_output : string)
  | CallingTool (tool_name tool_kwargs : string).

(** The [elif] branches, taken when no banner is printed. *)
Definition print_event (k : kind) : list printed :=
  match k with
  | AgentOutput content tool_calls =>
      (if negb (String.eqb content "") then [Output content] else [])
      ++ (match tool_calls with [] => [] | _ :: _ => [Planning tool_calls] end)
  | ToolCallResult tool_name tool_kwargs tool_output =>
      [ToolResult tool_name tool_kwargs tool_output]
  | ToolCall tool_name tool_kwargs => [CallingTool tool_name tool_kwargs]
  | OtherEvent => []
  end.

(** The body of the [async for] loop, on the current agent and the lines
    printed so far. *)
Definition on_event (st : option string * list printed) (ev : event)
  : option string * list printed :=
  let '(current_agent, out) := st in
  match current_agent_name ev with
  | Some agent =>
      if decide (Some agent = current_agent)
      then (current_agent, out ++ print_event (event_kind ev))
      else (Some agent, out ++ [Banner agent])
  | None => (current_agent, out ++ print_event (event_kind ev))
  end.

(** The loop over a stream, from [current_agent = None]. *)
Definition stream_events (events : list event) : option string * list printed :=
  fold_left on_event events (None, []).

(** The agents announced by banners, in order. *)
Definition announced (out : list printed) : list string :=
  omap (fun p => match p with Banner agent => Some agent | _ => None end) out.

End Stream.


(** ** Part II: properties *)

(** *** The engine *)

Section scheduler_facts.
Context {Event Store Result : Type} `{EventKind Event Result}.
Variable steps : list (Scheduler.Step Event Store).

Import Scheduler.

Local Abbreviation Run := (Scheduler.Run Event Store Result).

Lemma sched_step_terminal (r : Run) o :
  result r = Some o -> sched_step steps r = r.
Proof. unfold sched_step. now intros ->. Qed.

Lemma tick_terminal timeout sig (r : Run) o :
  result r = Some o -> tick steps timeout sig r = r.
Proof. unfold tick. now intros ->. Qed.

Lemma tick_cancel timeout (r : Run) :
  result r = None -> tick steps timeout CancelRequest r = finish Cancelled r.
Proof. unfold tick. now intros ->. Qed.

Lemma tick_timeout timeout d (r : Run) :
  result r = None -> (timeout <= clock r)%nat ->
  tick steps timeout (Elapse d) r = finish Timeout r.
Proof.
  unfold tick. intros -> Hc.
  now rewrite (proj2 (Nat.leb_le _ _) Hc).
Qed.

Lemma tick_dispatch timeout d (r : Run) :
  result r = None -> (clock r < timeout)%nat ->
  tick steps timeout (Elapse d) r = advance (S d) (dispatch steps r).
Proof.
  unfold tick. intros -> Hc.
  now rewrite (proj2 (Nat.leb_gt _ _) Hc).
Qed.

(** The three shapes of one dispatch. *)
Lemma dispatch_unrouted (r : Run) sender ev q e :
  queue r = (sender, ev) :: q -> route steps sender ev = inl e ->
  dispatch steps r =
    {| queue := q; store := store r; result := Some (Failed e);
       log := log r; processed := processed r ++ [ev];
       arrived := arrived r; clock := clock r |}.
Proof. unfold dispatch. now intros -> ->. Qed.

Lemma dispatch_raised (r : Run) sender ev q s st e :
  queue r = (sender, ev) :: q -> route steps sender ev = inr s ->
  body s (store r) ev = (st, inl e) ->
  dispatch steps r =
    {| queue := q; store := st; result := Some (Failed e);
       log := log r ++ [(name s, ev, inl e)];
       processed := processed r ++ [ev];
       arrived := arrived r; clock := clock r |}.
Proof. unfold dispatch. now intros -> -> ->. Qed.

Lemma dispatch_returned (r : Run) sender ev q s st outs :
  queue r = (sender, ev) :: q -> route steps sender ev = inr s ->
  body s (store r) ev = (st, inr outs) ->
  dispatch steps r =
    {| queue := q ++ List.map (fun o => (Some (name s), o)) outs;
       store := st;
       result := option_map Stopped (first_stop outs);
       log := log r ++ [(name s, ev, inr outs)];
       processed := processed r ++ [ev];
       arrived := arrived r ++ outs; clock := clock r |}.
Proof. unfold dispatch. now intros -> -> ->. Qed.

(** Case analysis on one dispatch, for invariants. *)
Lemma dispatch_cases (r : Run) :
  (queue r = [] /\ dispatch steps r = r)
  \/ (exists sender ev q e,
        queue r = (sender, ev) :: q /\ route steps sender ev = inl e
        /\ dispatch steps r =
             {| queue := q; store := store r; result := Some (Failed e);
                log := log r; processed := processed r ++ [ev];
                arrived := arrived r; clock := clock r |})
  \/ (exists sender ev q s st e,
        queue r = (sender, ev) :: q /\ route steps sender ev = inr s
        /\ body s (store r) ev = (st, inl e)
        /\ dispatch steps r =
             {| queue := q; store := st; result := Some (Failed e);
                log := log r ++ [(name s, ev, inl e)];
                processed := processed r ++ [ev];
                arrived := arrived r; clock := clock r |})
  \/ (exists sender ev q s st outs,
        queue r = (sender, ev) :: q /\ route steps sender ev = inr s
        /\ body s (store r) ev = (st, inr outs)
        /\ dispatch steps r =
             {| queue := q ++ List.map (fun o => (Some (name s), o)) outs;
                store := st;
                result := option_map Stopped (first_stop outs);
                log := log r ++ [(name s, ev, inr outs)];
                processed := processed r ++ [ev];
                arrived := arrived r ++ outs; clock := clock r |}).
Proof.
  destruct (queue r) as [|[sender ev] q] eqn:Hq.
  - left. split; [reflexivity|]. unfold dispatch. now rewrite Hq.
  - right. destruct (route steps sender ev) as [e|s] eqn:Hr.
    + left. exists sender, ev, q, e. repeat split; try assumption.
      now apply dispatch_unrouted with sender.
    + right. destruct (body s (store r) ev) as [st [e|outs]] eqn:Hb.
      * left. exists sender, ev, q, s, st, e. repeat split; try assumption.
        now apply dispatch_raised with sender.
      * right. exists sender, ev, q, s, st, outs. repeat split; try assumption.
        now apply dispatch_returned with sender.
Qed.

(** Nothing happens to a terminal run. *)
Lemma run_ticks_terminal timeout sigs n (r : Run) o :
  result r = Some o -> run_ticks steps timeout sigs n r = r.
Proof.
  intros Hr. induction n as [|n IH]; simpl; [reflexivity|].
  rewrite IH. now apply tick_terminal with o.
Qed.

Lemma run_ticks_stable timeout sigs (r : Run) n m o :
  result (run_ticks steps timeout sigs n r) = Some o -> (n <= m)%nat ->
  run_ticks steps timeout sigs m r = run_ticks steps timeout sigs n r.
Proof.
  intros Hr Hle. induction Hle as [|m Hle IH]; [reflexivity|].
  simpl. rewrite IH. now apply tick_terminal with o.
Qed.

Lemma run_steps_terminal n (r : Run) o :
  result r = Some o -> run_steps steps n r = r.
Proof.
  intros Hr. induction n as [|n IH]; simpl; [reflexivity|].
  rewrite IH. now apply sched_step_terminal with o.
Qed.

(** A run that is still going has used at least one time unit per
    iteration, so the timeout is reached. *)
Lemma clock_dispatch (r : Run) : clock (dispatch steps r) = clock r.
Proof.
  destruct (dispatch_cases r) as [[_ ->]|[(s & e & q & x & _ & _ & ->)
    |[(s & e & q & x & st & y & _ & _ & _ & ->)
    |(s & e & q & x & st & y & _ & _ & _ & ->)]]]; reflexivity.
Qed.

Lemma clock_lower_bound timeout sigs n (r : Run) :
  result (run_ticks steps timeout sigs n r) = None ->
  (n <= clock (run_ticks steps timeout sigs n r))%nat.
Proof.
  induction n as [|n IH]; simpl; [lia|].
  set (r' := run_ticks steps timeout sigs n r) in *.
  destruct (result r') as [o|] eqn:Hr'.
  - rewrite (tick_terminal _ _ _ _ Hr'). congruence.
  - specialize (IH eq_refl). unfold tick. rewrite Hr'.
    destruct (sigs n) as [d|]; [|discriminate].
    destruct (timeout <=? clock r')%nat; [discriminate|].
    intros _. simpl. rewrite clock_dispatch. lia.
Qed.

Lemma run_ticks_terminates timeout sigs (r : Run) :
  exists o, result (run_ticks steps timeout sigs (S timeout) r) = Some o.
Proof.
  simpl. set (r' := run_ticks steps timeout sigs timeout r).
  destruct (result r') as [o|] eqn:Hr'.
  - exists o. now rewrite (tick_terminal _ _ _ _ Hr').
  - pose proof (clock_lower_bound timeout sigs timeout r Hr') as Hc.
    fold r' in Hc. destruct (sigs timeout) as [d|].
    + rewrite (tick_timeout _ _ _ Hr' Hc). now eexists.
    + rewrite (tick_cancel _ _ Hr'). now eexists.
Qed.

(** An invariant of the engine is a property that one dispatch keeps and
    that does not depend on the outcome slot or the clock. *)
Lemma tick_invariant (P : Run -> Prop) :
  (forall r, result r = None -> P r -> P (dispatch steps r)) ->
  (forall r o, result r = None -> P r -> P (finish o r)) ->
  (forall r d, P r -> P (advance d r)) ->
  forall timeout sig r, P r -> P (tick steps timeout sig r).
Proof.
  intros Hdispatch Hfinish Hadvance timeout sig r HP. unfold tick.
  destruct (result r) eqn:Hr; [assumption|].
  destruct sig as [d|]; [|now apply Hfinish].
  destruct (timeout <=? clock r)%nat; [now apply Hfinish|].
  now apply Hadvance, Hdispatch.
Qed.

Lemma run_invariant (P : Run -> Prop) :
  (forall r, result r = None -> P r -> P (dispatch steps r)) ->
  (forall r o, result r = None -> P r -> P (finish o r)) ->
  (forall r d, P r -> P (advance d r)) ->
  forall timeout sigs n r, P r -> P (run_ticks steps timeout sigs n r).
Proof.
  intros Hdispatch Hfinish Hadvance timeout sigs n r HP.
  induction n as [|n IH]; simpl; [assumption|].
  now apply tick_invariant.
Qed.

Lemma fifo_start ev st : fifo (start ev st : Run).
Proof. reflexivity. Qed.

Lemma fifo_dispatch (r : Run) : fifo r -> fifo (dispatch steps r).
Proof.
  unfold fifo. intros Hf.
  destruct (dispatch_cases r) as [[_ ->]|[(s & e & q & x & Hq & _ & ->)
    |[(s & e & q & x & st & y & Hq & _ & _ & ->)
    |(s & e & q & x & st & y & Hq & _ & _ & ->)]]]; simpl;
    try assumption; rewrite Hf, Hq; simpl.
  - now rewrite <- app_assoc.
  - now rewrite <- app_assoc.
  - rewrite List.map_app, List.map_map. simpl. rewrite List.map_id.
    now rewrite <- !app_assoc.
Qed.

Lemma fifo_run timeout sigs n (r : Run) :
  fifo r -> fifo (run_ticks steps timeout sigs n r).
Proof.
  apply run_invariant.
  - intros r0 _. apply fifo_dispatch.
  - now intros r0 o _.
  - now intros r0 d.
Qed.

Lemma stop_is_last_start ev st : stop_is_last (start ev st : Run).
Proof. constructor. Qed.

Lemma stop_is_last_dispatch (r : Run) :
  result r = None -> stop_is_last r -> stop_is_last (dispatch steps r).
Proof.
  unfold stop_is_last at 1. intros Hr Hq. rewrite Hr in Hq.
  destruct (dispatch_cases r) as [[_ ->]|[(s & e & q & x & _ & _ & ->)
    |[(s & e & q & x & st & y & _ & _ & _ & ->)
    |(s & e & q & x & st & y & _ & _ & _ & ->)]]]; unfold stop_is_last; simpl.
  - now rewrite Hr.
  - now left.
  - right. now exists (log r), (name x, e, inl y).
  - destruct (first_stop y) as [res|] eqn:Hs; simpl.
    + right. exists (log r), (name x, e, inr y). repeat split; [assumption|].
      simpl. now rewrite Hs.
    + apply Forall_app. split; [assumption|]. now repeat constructor.
Qed.

Lemma stop_is_last_run timeout sigs n (r : Run) :
  stop_is_last r -> stop_is_last (run_ticks steps timeout sigs n r).
Proof.
  apply run_invariant.
  - apply stop_is_last_dispatch.
  - intros r0 o Hr Hs. unfold stop_is_last in *. simpl.
    rewrite Hr in Hs. now left.
  - now intros r0 d.
Qed.

Lemma stop_is_last_spec (r : Run) pre s e outs post res :
  stop_is_last r ->
  log r = pre ++ (s, e, inr outs) :: post -> first_stop outs = Some res ->
  post = [] /\ result r = Some (Stopped res).
Proof.
  intros Hs Hl Hf.
  assert (Hnq : ~ Forall quiet (log r)).
  { rewrite Hl. intros Hq. apply Forall_app in Hq as [_ Hq].
    inversion Hq as [|? ? Hq1 _]; subst. simpl in Hq1. congruence. }
  unfold stop_is_last in Hs.
  destruct (result r) as [o|]; [|contradiction].
  destruct Hs as [Hq|(pre' & i & Hl' & Hq & He)]; [contradiction|].
  rewrite Hl in Hl'.
  destruct post as [|j post].
  - apply app_inj_tail in Hl' as [_ <-]. simpl in He. rewrite Hf in He.
    simpl in He. split; [reflexivity|congruence].
  - exfalso.
    assert (Hin : In (s, e, inr outs) pre').
    { change (pre ++ (s, e, inr outs) :: j :: post)
        with (pre ++ [(s, e, inr outs)] ++ j :: post) in Hl'.
      rewrite app_assoc in Hl'.
      destruct (@exists_last _ (j :: post)) as (post' & k & Hk); [discriminate|].
      rewrite Hk, app_assoc in Hl'.
      apply app_inj_tail in Hl' as [<- _].
      apply in_or_app. left. apply in_or_app. right. now left. }
    rewrite List.Forall_forall in Hq. specialize (Hq _ Hin).
    simpl in Hq. congruence.
Qed.

(** C2.  Every run of the engine produces exactly one terminal outcome: some
    outcome is reached (at the latest when the timeout fires) and no other
    is ever shown; once the run is terminal nothing changes any more, so no
    step is invoked and no event is processed; and an invocation that
    returns a [StopEvent] is the last of the run, which ends with the result
    of the first [StopEvent] it returned. *)
Theorem run_terminates_exactly_once timeout sigs (ev : Event) (st : Store) :
  let r := fun n => run_ticks steps timeout sigs n (start ev st) in
  (exists o : outcome Result,
      (exists n, result (r n) = Some o)
      /\ forall n o', result (r n) = Some o' -> o' = o)
  /\ (forall n m o, result (r n) = Some o -> (n <= m)%nat -> r m = r n)
  /\ (forall n pre s e outs post res,
        log (r n) = pre ++ (s, e, inr outs) :: post ->
        first_stop outs = Some res ->
        post = [] /\ result (r n) = Some (Stopped res)).
Proof.
  intros r. split; [|split].
  - destruct (run_ticks_terminates timeout sigs (start ev st)) as [o Ho].
    exists o. split; [now exists (S timeout)|].
    intros n o' Hn.
    destruct (Nat.le_ge_cases n (S timeout)) as [Hle|Hle].
    + pose proof (run_ticks_stable timeout sigs _ _ _ _ Hn Hle) as Heq.
      unfold r in Hn. rewrite <- Heq in Hn. congruence.
    + pose proof (run_ticks_stable timeout sigs _ _ _ _ Ho Hle) as Heq.
      unfold r in Hn. rewrite Heq in Hn. congruence.
  - intros n m o Hn Hle. now apply run_ticks_stable with o.
  - intros n pre s e outs post res Hl Hf.
    apply stop_is_last_spec with pre s e outs; try assumption.
    apply stop_is_last_run, stop_is_last_start.
Qed.

(** C7.  In every run the events processed so far, followed by the pending
    queue, are the events in their order of arrival: events are dequeued in
    FIFO order.  An iteration processes the head of the queue, and the
    events the step returns go to the tail of the queue in the order
    returned. *)
Theorem events_processed_in_fifo_order timeout sigs (ev : Event) (st : Store) n :
  let r := run_ticks steps timeout sigs n (start ev st) in
  arrived r = processed r ++ List.map snd (queue r)
  /\ forall d sender e q,
       result r = None -> (clock r < timeout)%nat ->
       queue r = (sender, e) :: q ->
       let r' := tick steps timeout (Elapse d) r in
       processed r' = processed r ++ [e]
       /\ forall s st' outs,
            route steps sender e = inr s ->
            body s (store r) e = (st', inr outs) ->
            queue r' = q ++ List.map (fun o => (Some (name s), o)) outs
            /\ arrived r' = arrived r ++ outs.
Proof.
  intros r. split.
  - apply (fifo_run timeout sigs n), fifo_start.
  - intros d sender e q Hr Hc Hq r'. unfold r'.
    rewrite (tick_dispatch _ _ _ Hr Hc). split.
    + destruct (route steps sender e) as [x|s] eqn:Hroute.
      * now rewrite (dispatch_unrouted _ _ _ _ _ Hq Hroute).
      * destruct (body s (store r) e) as [st' [x|outs]] eqn:Hb.
        -- now rewrite (dispatch_raised _ _ _ _ _ _ _ Hq Hroute Hb).
        -- now rewrite (dispatch_returned _ _ _ _ _ _ _ Hq Hroute Hb).
    + intros s st' outs Hroute Hb.
      now rewrite (dispatch_returned _ _ _ _ _ _ _ Hq Hroute Hb).
Qed.

Lemma find_step_name n (s : Step Event Store) :
  find_step steps n = Some s -> name s = n.
Proof.
  unfold find_step. intros Hf. apply List.find_some in Hf as [_ Hn].
  now apply String.eqb_eq.
Qed.

Lemma allowed_spec tgt (l : list string) :
  existsb (String.eqb tgt) l = true <-> In tgt l.
Proof.
  rewrite List.existsb_exists. split.
  - intros (x & Hin & Heq). apply String.eqb_eq in Heq. now subst.
  - intros Hin. exists tgt. split; [assumption|apply String.eqb_refl].
Qed.

(** C3.  When the engine handles a handoff event that the step [cur]
    emitted and that names the registered step [tgt]: if [tgt] is in the
    allow-list of [cur], the step invoked is [tgt]; if it is not, the run
    fails with [IllegalHandoffError] and no invocation is ever recorded
    again, so that [tgt] is not invoked. *)
Theorem handoff_checked_against_allow_list
    timeout d (r : Run) cur ev tgt q (c t : Step Event Store) :
  result r = None -> (clock r < timeout)%nat ->
  queue r = (Some cur, ev) :: q ->
  handoff_target ev = Some tgt ->
  find_step steps cur = Some c ->
  find_step steps tgt = Some t ->
  let r' := tick steps timeout (Elapse d) r in
  name t = tgt
  /\ (In tgt (can_handoff_to c) ->
      log r' = log r ++ [(tgt, ev, snd (body t (store r) ev))])
  /\ (~ In tgt (can_handoff_to c) ->
      result r' = Some (Failed IllegalHandoffError)
      /\ forall sigs n, log (run_ticks steps timeout sigs n r') = log r).
Proof.
  intros Hr Hc Hq Hh Hcur Htgt r'. unfold r'.
  rewrite (tick_dispatch _ _ _ Hr Hc).
  pose proof (find_step_name _ _ Htgt) as Hname.
  split; [assumption|]. split.
  - intros Hin. apply allowed_spec in Hin.
    assert (Hroute : route steps (Some cur) ev = inr t).
    { unfold route, lookup_target. now rewrite Hh, Hcur, Hin, Htgt. }
    destruct (body t (store r) ev) as [st' [x|outs]] eqn:Hb.
    + rewrite (dispatch_raised _ _ _ _ _ _ _ Hq Hroute Hb). simpl.
      now rewrite Hname.
    + rewrite (dispatch_returned _ _ _ _ _ _ _ Hq Hroute Hb). simpl.
      now rewrite Hname.
  - intros Hnin.
    assert (Hroute : route steps (Some cur) ev = inl IllegalHandoffError).
    { unfold route. rewrite Hh, Hcur.
      destruct (existsb (String.eqb tgt) (can_handoff_to c)) eqn:Hex;
        [|reflexivity].
      now apply allowed_spec in Hex. }
    rewrite (dispatch_unrouted _ _ _ _ _ Hq Hroute). split; [reflexivity|].
    intros sigs n.
    now rewrite (run_ticks_terminal _ _ _ _ (Failed IllegalHandoffError)).
Qed.

End scheduler_facts.

(** *** The reflection workflow *)

Section reflection_facts.
Variable max_retries : Z.
Variable acomplete : nat -> string -> option string.
Variable model_validate_json : string -> string + Reflection.CarCollection.
Variable schema_json : string.

Import Reflection.

Local Abbreviation Run := (Scheduler.Run Event Context string).
Local Abbreviation extract := (Reflection.extract max_retries acomplete schema_json).
Local Abbreviation validate := (Reflection.validate model_validate_json).
Local Abbreviation extract_step := (Reflection.extract_step max_retries acomplete schema_json).
Local Abbreviation validate_step := (Reflection.validate_step model_validate_json).
Local Abbreviation steps :=
  (Reflection.steps max_retries acomplete model_validate_json schema_json).
Local Abbreviation nth_output :=
  (Reflection.nth_output acomplete model_validate_json schema_json).
Local Abbreviation valid := (Reflection.valid model_validate_json).
Local Abbreviation validation_error := (Reflection.validation_error model_validate_json).

(** Routing follows the annotations of the two steps. *)
Lemma route_start sender kwargs :
  Scheduler.route steps sender (StartEvent kwargs) = inr extract_step.
Proof. reflexivity. Qed.

Lemma route_validation_error sender e o p :
  Scheduler.route steps sender (ValidationErrorEvent e o p) = inr extract_step.
Proof. reflexivity. Qed.

Lemma route_extraction_done sender o p :
  Scheduler.route steps sender (ExtractionDone o p) = inr validate_step.
Proof. reflexivity. Qed.

Lemma route_stop sender res :
  Scheduler.route steps sender (StopEvent res) = inl ConfigurationError.
Proof. reflexivity. Qed.

Lemma get_retries_set n ctx : get_retries (set_retries n ctx) = n.
Proof. unfold get_retries, set_retries. simpl. now rewrite lookup_insert_eq. Qed.

Lemma get_retries_empty : get_retries empty_context = 0.
Proof. reflexivity. Qed.

(** [extract] at the ceiling, and below it. *)
Lemma extract_at_ceiling ctx ev :
  max_retries <= get_retries ctx ->
  extract ctx ev = (ctx, inr [StopEvent "Max retries reached"]).
Proof.
  intros Hle. unfold Reflection.extract.
  now rewrite (proj2 (Z.leb_le _ _) Hle).
Qed.

Lemma complete_spec ctx passage reflection_prompt :
  let prompt :=
    if negb (String.eqb reflection_prompt "")
    then EXTRACTION_PROMPT passage schema_json +:+ reflection_prompt
    else EXTRACTION_PROMPT passage schema_json in
  complete acomplete schema_json ctx passage reflection_prompt =
    ({| store := store ctx; prompts := prompts ctx ++ [prompt] |},
     match acomplete (length (prompts ctx)) prompt with
     | Some output => inr [ExtractionDone output passage]
     | None => inl ModelError
     end).
Proof. unfold complete. simpl. now destruct (acomplete _ _). Qed.

Lemma reflection_prompt_nonempty wrong_output e :
  String.eqb (REFLECTION_PROMPT wrong_output e) "" = false.
Proof. reflexivity. Qed.

Lemma extract_below_ceiling ctx ev :
  get_retries ctx < max_retries ->
  extract ctx ev =
    let ctx' := set_retries (get_retries ctx + 1) ctx in
    match ev with
    | StartEvent kwargs =>
        if truthy (kwargs !! "passage")
        then complete acomplete schema_json ctx' (default "" (kwargs !! "passage")) ""
        else (ctx', inr [StopEvent "Please provide some text in input"])
    | ValidationErrorEvent e wrong_output passage =>
        complete acomplete schema_json ctx' passage (REFLECTION_PROMPT wrong_output e)
    | _ => (ctx', inl (PythonError "UnboundLocalError"))
    end.
Proof.
  intros Hlt. unfold Reflection.extract.
  rewrite (proj2 (Z.leb_gt _ _) Hlt). simpl.
  destruct ev; try reflexivity.
  now destruct (truthy _).
Qed.

(** C4.  [validate] returns a [StopEvent] carrying the output exactly when
    the output parses as a [CarCollection]; otherwise it returns a
    [ValidationErrorEvent] carrying the error, the output and the passage,
    which the engine routes to [extract], the step that generated the
    output, and the run goes on with that event pending: a validation
    failure does not end the run. *)
Theorem validate_stops_exactly_on_valid_output ctx output passage :
  validate ctx (ExtractionDone output passage) =
    (ctx, inr [match model_validate_json output with
               | inl e => ValidationErrorEvent e output passage
               | inr _ => StopEvent output
               end])
  /\ (snd (validate ctx (ExtractionDone output passage)) = inr [StopEvent output]
      <-> exists cars, model_validate_json output = inr cars)
  /\ (forall e, model_validate_json output = inl e ->
      Scheduler.route steps (Some "validate")
        (ValidationErrorEvent e output passage) = inr extract_step
      /\ Scheduler.name extract_step = "extract"
      /\ Scheduler.body extract_step = extract
      /\ forall (r : Run) sender q,
           Scheduler.result r = None ->
           Scheduler.queue r = (sender, ExtractionDone output passage) :: q ->
           let r' := Scheduler.sched_step steps r in
           Scheduler.result r' = None
           /\ Scheduler.queue r' =
                q ++ [(Some "validate", ValidationErrorEvent e output passage)]).
Proof.
  unfold Reflection.validate. split; [|split].
  - now destruct (model_validate_json output).
  - destruct (model_validate_json output) as [e|cars]; simpl; split.
    + discriminate.
    + intros [cars Hc]. discriminate.
    + intros _. now exists cars.
    + reflexivity.
  - intros e He. split; [reflexivity|]. split; [reflexivity|].
    split; [reflexivity|].
    intros r sender q Hr Hq. unfold Scheduler.sched_step. rewrite Hr.
    rewrite (dispatch_returned steps r sender _ q validate_step
               (Scheduler.store r) [ValidationErrorEvent e output passage] Hq
               (route_extraction_done _ _ _)).
    + now split.
    + simpl. unfold Reflection.validate. now rewrite He.
Qed.

(** C10.  When the [StartEvent] carries no passage (the key is missing or
    its text is empty) and the counter is still at zero, [extract] returns
    the [StopEvent] asking for input, sends no prompt to the model, and has
    set [retries] to 1; a run started that way ends with that result. *)
Theorem missing_passage_stops_after_counting kwargs ctx :
  0 < max_retries ->
  truthy (kwargs !! "passage") = false ->
  get_retries ctx = 0 ->
  extract ctx (StartEvent kwargs) =
    (set_retries 1 ctx, inr [StopEvent "Please provide some text in input"])
  /\ prompts (set_retries 1 ctx) = prompts ctx
  /\ store (set_retries 1 ctx) !! "retries" = Some 1
  /\ let r := Scheduler.run_steps steps 1 (run kwargs) in
     Scheduler.result r = Some (Stopped "Please provide some text in input")
     /\ prompts (Scheduler.store r) = []
     /\ store (Scheduler.store r) !! "retries" = Some 1.
Proof.
  intros Hm Hp Hz.
  assert (He : forall c, get_retries c = 0 ->
            extract c (StartEvent kwargs) =
              (set_retries 1 c, inr [StopEvent "Please provide some text in input"])).
  { intros c Hc. rewrite extract_below_ceiling by lia. simpl.
    now rewrite Hp, Hc. }
  split; [now apply He|]. split; [reflexivity|].
  split; [apply lookup_insert_eq|].
  simpl. unfold Scheduler.sched_step. simpl.
  rewrite (dispatch_returned steps (run kwargs) None _ []
             extract_step (set_retries 1 empty_context)
             [StopEvent "Please provide some text in input"]
             eq_refl (route_start _ _) (He empty_context get_retries_empty)).
  simpl. split; [reflexivity|]. split; [reflexivity|]. apply lookup_insert_eq.
Qed.

(** The two ways an invocation of [extract] goes. *)
Lemma extract_cases ctx ev :
  (max_retries <= get_retries ctx
   /\ extract ctx ev = (ctx, inr [StopEvent "Max retries reached"]))
  \/ (get_retries ctx < max_retries
      /\ exists ctx' ret,
           extract ctx ev = (ctx', ret)
           /\ get_retries ctx' = get_retries ctx + 1
           /\ hit_ceiling ret = false
           /\ (length (prompts ctx') <= S (length (prompts ctx)))%nat).
Proof.
  destruct (Z.le_gt_cases max_retries (get_retries ctx)) as [Hle|Hlt].
  - left. split; [assumption|now apply extract_at_ceiling].
  - right. split; [assumption|].
    rewrite (extract_below_ceiling _ _ Hlt). cbv zeta.
    set (ctx' := set_retries (get_retries ctx + 1) ctx).
    assert (Hg : get_retries ctx' = get_retries ctx + 1)
      by apply get_retries_set.
    assert (Hc : forall p rp, exists c ret,
               complete acomplete schema_json ctx' p rp = (c, ret)
               /\ get_retries c = get_retries ctx + 1
               /\ hit_ceiling ret = false
               /\ (length (prompts c) <= S (length (prompts ctx)))%nat).
    { intros p rp. rewrite complete_spec. cbv zeta.
      eexists _, _. split; [reflexivity|]. split; [exact Hg|]. split.
      - now destruct (acomplete _ _).
      - simpl. rewrite length_app. simpl. lia. }
    destruct ev as [kwargs|res|o p|e o p]; try apply Hc.
    + destruct (truthy (kwargs !! "passage")); [apply Hc|].
      exists ctx', (inr [StopEvent "Please provide some text in input"]).
      repeat split; [assumption|simpl; lia].
    + exists ctx', (inl (PythonError "UnboundLocalError")).
      repeat split; [assumption|simpl; lia].
    + exists ctx', (inl (PythonError "UnboundLocalError")).
      repeat split; [assumption|simpl; lia].
Qed.

Lemma route_cases sender ev s :
  Scheduler.route steps sender ev = inr s ->
  s = extract_step \/ (s = validate_step /\ exists o p, ev = ExtractionDone o p).
Proof.
  destruct ev as [kwargs|res|o p|e o p]; cbn; intros Hr;
    inversion Hr; subst; eauto.
Qed.

Lemma attempts_snoc (r : Run) i :
  List.filter proceeds (Scheduler.log r ++ [i]) =
    attempts r ++ (if proceeds i then [i] else []).
Proof.
  unfold attempts. rewrite List.filter_app. simpl.
  now destruct (proceeds i).
Qed.

(** One invocation keeps the counter and the trace in step. *)
Lemma counted_invocation (r : Run) s ev st ret :
  counted max_retries r ->
  (s = extract_step \/ (s = validate_step /\ exists o p, ev = ExtractionDone o p)) ->
  Scheduler.body s (Scheduler.store r) ev = (st, ret) ->
  let trace := List.filter proceeds (Scheduler.log r ++ [(Scheduler.name s, ev, ret)]) in
  get_retries st = Z.of_nat (length trace)
  /\ (length (prompts st) <= length trace)%nat
  /\ Z.of_nat (length trace) <= Z.max 0 max_retries.
Proof.
  intros (Hg & Hp & Hb) Hs Hbody trace. unfold trace.
  rewrite attempts_snoc. rewrite length_app.
  destruct Hs as [->|[-> (o & p & ->)]]; simpl in Hbody.
  - destruct (extract_cases (Scheduler.store r) ev)
      as [[Hle He]|[Hlt (c & x & He & Hg' & Hh & Hp')]];
      rewrite He in Hbody; inversion Hbody; subst; clear Hbody.
    + simpl. rewrite Nat.add_0_r. now repeat split.
    + unfold proceeds. simpl. rewrite Hh. simpl. repeat split; lia.
  - unfold Reflection.validate in Hbody.
    destruct (model_validate_json o); inversion Hbody; subst;
      simpl; rewrite Nat.add_0_r; now repeat split.
Qed.

Lemma counted_dispatch (r : Run) :
  counted max_retries r -> counted max_retries (Scheduler.dispatch steps r).
Proof.
  intros Hc.
  destruct (dispatch_cases steps r) as [[_ ->]|[(s & e & q & x & _ & _ & ->)
    |[(s & e & q & x & st & y & _ & Hr & Hb & ->)
    |(s & e & q & x & st & y & _ & Hr & Hb & ->)]]]; try assumption.
  - apply (counted_invocation r x e st (inl y) Hc (route_cases _ _ _ Hr) Hb).
  - apply (counted_invocation r x e st (inr y) Hc (route_cases _ _ _ Hr) Hb).
Qed.

Lemma counted_start kwargs : counted max_retries (run kwargs).
Proof. repeat split; simpl; try reflexivity; lia. Qed.

Lemma start_first_dispatch kwargs (r : Run) :
  Scheduler.result r = None -> counted max_retries r ->
  start_first max_retries kwargs r ->
  start_first max_retries kwargs (Scheduler.dispatch steps r).
Proof.
  intros Hres (Hg & _ & _) Hs. unfold start_first in *.
  destruct (Scheduler.log r) as [|i l] eqn:Hl.
  - specialize (Hs Hres).
    unfold attempts in Hg. rewrite Hl in Hg. simpl in Hg.
    destruct (Scheduler.body extract_step (Scheduler.store r) (StartEvent kwargs))
      as [st [e|outs]] eqn:Hb.
    + rewrite (dispatch_raised steps r None _ [] extract_step st e Hs
                 (route_start _ _) Hb). simpl. rewrite Hl. simpl.
      exists (inl e). split; [reflexivity|reflexivity].
    + rewrite (dispatch_returned steps r None _ [] extract_step st outs Hs
                 (route_start _ _) Hb). simpl. rewrite Hl. simpl.
      exists (inr outs). split; [reflexivity|]. intros Hm.
      simpl in Hb.
      destruct (extract_cases (Scheduler.store r) (StartEvent kwargs))
        as [[Hle _]|[_ (c & x & He & _ & Hh & _)]]; [lia|].
      rewrite He in Hb. now inversion Hb; subst.
  - destruct (dispatch_cases steps r) as [[_ ->]|[(s & e & q & x & _ & _ & ->)
      |[(s & e & q & x & st & y & _ & _ & _ & ->)
      |(s & e & q & x & st & y & _ & _ & _ & ->)]]]; simpl; rewrite Hl;
      assumption.
Qed.

Lemma run_invariants kwargs timeout sigs n :
  let r := Scheduler.run_ticks steps timeout sigs n (run kwargs) in
  counted max_retries r /\ start_first max_retries kwargs r.
Proof.
  apply (run_invariant steps
           (fun r => counted max_retries r /\ start_first max_retries kwargs r)).
  - intros r Hr [Hc Hs]. split; [now apply counted_dispatch|].
    now apply start_first_dispatch.
  - intros r o Hr [Hc Hs]. split; [assumption|].
    unfold start_first in *. simpl.
    destruct (Scheduler.log r); [discriminate|assumption].
  - now intros r d.
  - split; [apply counted_start|]. now intros _.
Qed.

Lemma filter_length_le {A} (f : A -> bool) (l : list A) :
  (length (List.filter f l) <= length l)%nat.
Proof.
  induction l as [|a l IH]; simpl; [lia|].
  destruct (f a); simpl; lia.
Qed.

Lemma reflective_bound (a f : nat) m :
  Z.of_nat a <= Z.max 0 m -> (f <= a)%nat -> m <= 0 \/ (S f <= a)%nat ->
  Z.of_nat f <= Z.max 0 (m - 1).
Proof. lia. Qed.

(** C9.  [extract] adds one to [retries] in every invocation that passes
    the ceiling test, whatever the event (the [StartEvent] included), and
    changes nothing once the ceiling is reached.  Hence in every run
    [retries] is the number of extraction attempts, there are at most
    [max_retries] of them, at most [max_retries - 1] of them answer a
    validation error, and no more prompts reach the model than there are
    attempts. *)
Theorem retries_counts_extraction_attempts kwargs timeout sigs n :
  let r := Scheduler.run_ticks steps timeout sigs n (run kwargs) in
  (forall ctx ev, get_retries ctx < max_retries ->
     get_retries (fst (extract ctx ev)) = get_retries ctx + 1)
  /\ (forall ctx ev, max_retries <= get_retries ctx ->
        extract ctx ev = (ctx, inr [StopEvent "Max retries reached"]))
  /\ get_retries (Scheduler.store r) = Z.of_nat (length (attempts r))
  /\ Z.of_nat (length (attempts r)) <= Z.max 0 max_retries
  /\ Z.of_nat (length (List.filter reflective (attempts r))) <= Z.max 0 (max_retries - 1)
  /\ (length (prompts (Scheduler.store r)) <= length (attempts r))%nat.
Proof.
  intros r.
  destruct (run_invariants kwargs timeout sigs n) as [(Hg & Hp & Hb) Hs].
  fold r in Hg, Hp, Hb, Hs.
  split; [|split; [|split; [|split; [|split]]]]; try assumption.
  - intros ctx ev Hlt.
    destruct (extract_cases ctx ev) as [[Hle _]|[_ (c & x & He & Hg' & _)]];
      [lia|]. now rewrite He.
  - intros ctx ev. apply extract_at_ceiling.
  - unfold start_first in Hs. unfold attempts in *.
    destruct (Scheduler.log r) as [|i l]; [simpl; lia|].
    destruct Hs as (ret & -> & Hh).
    destruct (Z.le_gt_cases max_retries 0) as [Hle|Hlt].
    + apply (reflective_bound _ _ _ Hb (filter_length_le reflective _)).
      now left.
    + specialize (Hh Hlt). simpl in *. unfold proceeds in *. simpl in *.
      rewrite Hh in *. simpl in *.
      apply (reflective_bound _ _ _ Hb).
      * apply le_S, filter_length_le.
      * right. apply le_n_S, filter_length_le.
Qed.

Local Abbreviation at_attempt :=
  (Reflection.at_attempt acomplete model_validate_json schema_json).

Lemma run_steps_stable (r : Run) n m o :
  Scheduler.result (Scheduler.run_steps steps n r) = Some o -> (n <= m)%nat ->
  Scheduler.run_steps steps m r = Scheduler.run_steps steps n r.
Proof.
  intros Hr Hle. induction Hle as [|m Hle IH]; [reflexivity|].
  simpl. rewrite IH. now apply sched_step_terminal with o.
Qed.

(** The [i]-th attempt sends the prompt that [nth_output] describes. *)
Lemma extract_attempt kwargs passage i (r : Run) o :
  kwargs !! "passage" = Some passage -> passage <> "" ->
  at_attempt kwargs passage i r ->
  Z.of_nat i < max_retries ->
  nth_output passage i = Some o ->
  let r' := Scheduler.sched_step steps r in
  Scheduler.result r' = None
  /\ Scheduler.queue r' = [(Some "extract", ExtractionDone o passage)]
  /\ get_retries (Scheduler.store r') = Z.of_nat (S i)
  /\ length (prompts (Scheduler.store r')) = S i.
Proof.
  intros Hk Hne (Hres & Hg & Hp & sender & ev & Hq & Hf) Hlt Ho.
  cbv zeta. unfold Scheduler.sched_step. rewrite Hres.
  set (ctx' := set_retries (get_retries (Scheduler.store r) + 1) (Scheduler.store r)).
  assert (Hbody : Scheduler.route steps sender ev = inr extract_step
                  /\ extract (Scheduler.store r) ev =
                       ({| store := store ctx'; prompts := prompts ctx' ++ 
                             [match i with
                              | O => EXTRACTION_PROMPT passage schema_json
                              | S j =>
                                  match nth_output passage j with
                                  | Some prev =>
                                      EXTRACTION_PROMPT passage schema_json
                                      +:+ REFLECTION_PROMPT prev (validation_error prev)
                                  | None => ""
                                  end
                              end] |},
                        inr [ExtractionDone o passage])).
  { rewrite extract_below_ceiling by lia. cbv zeta. fold ctx'.
    destruct i as [|j]; simpl in Hf.
    - inversion Hf; subst ev. split; [reflexivity|].
      rewrite Hk. simpl.
      destruct (String.eqb_spec passage "") as [->|_]; [contradiction|]. simpl.
      rewrite complete_spec. simpl.
      replace (length (prompts (Scheduler.store r))) with O by (symmetry; exact Hp).
      simpl in Ho. now rewrite Ho.
    - simpl in Ho. destruct (nth_output passage j) as [prev|]; [|discriminate].
      inversion Hf; subst ev. split; [reflexivity|].
      rewrite complete_spec. rewrite reflection_prompt_nonempty. simpl.
      replace (length (prompts (Scheduler.store r))) with (S j) by (symmetry; exact Hp).
      now rewrite Ho. }
  destruct Hbody as [Hroute Hbody].
  rewrite (dispatch_returned steps r sender ev [] extract_step _ _ Hq Hroute Hbody).
  subst ctx'. simpl. split; [reflexivity|]. split; [reflexivity|]. split.
  - unfold get_retries at 1. simpl. rewrite lookup_insert_eq. simpl. lia.
  - rewrite length_app. simpl. lia.
Qed.

(** [validate] after an attempt: a malformed output brings the run before
    the next attempt, a well-formed one ends it. *)
Lemma validate_rejects kwargs passage i (r : Run) o :
  Scheduler.result r = None ->
  Scheduler.queue r = [(Some "extract", ExtractionDone o passage)] ->
  get_retries (Scheduler.store r) = Z.of_nat (S i) ->
  length (prompts (Scheduler.store r)) = S i ->
  nth_output passage i = Some o -> valid o = false ->
  at_attempt kwargs passage (S i) (Scheduler.sched_step steps r).
Proof.
  intros Hres Hq Hg Hp Ho Hv.
  unfold Scheduler.sched_step. rewrite Hres.
  assert (Hb : validate (Scheduler.store r) (ExtractionDone o passage) =
               (Scheduler.store r,
                inr [ValidationErrorEvent (validation_error o) o passage])).
  { unfold Reflection.validate, Reflection.validation_error.
    unfold Reflection.valid in Hv.
    now destruct (model_validate_json o). }
  rewrite (dispatch_returned steps r _ _ [] validate_step _ _ Hq
             (route_extraction_done _ _ _) Hb).
  repeat split; simpl; try assumption.
  eexists _, _. split; [reflexivity|]. now rewrite Ho.
Qed.

Lemma validate_accepts passage (r : Run) o :
  Scheduler.result r = None ->
  Scheduler.queue r = [(Some "extract", ExtractionDone o passage)] ->
  valid o = true ->
  Scheduler.result (Scheduler.sched_step steps r) = Some (Stopped o).
Proof.
  intros Hres Hq Hv.
  unfold Scheduler.sched_step. rewrite Hres.
  assert (Hb : validate (Scheduler.store r) (ExtractionDone o passage) =
               (Scheduler.store r, inr [StopEvent o])).
  { unfold Reflection.validate. unfold Reflection.valid in Hv.
    now destruct (model_validate_json o). }
  now rewrite (dispatch_returned steps r _ _ [] validate_step _ _ Hq
                 (route_extraction_done _ _ _) Hb).
Qed.

Lemma ceiling_reached kwargs passage i (r : Run) :
  at_attempt kwargs passage i r -> max_retries <= Z.of_nat i ->
  Scheduler.result (Scheduler.sched_step steps r) =
    Some (Stopped "Max retries reached").
Proof.
  intros (Hres & Hg & Hp & sender & ev & Hq & Hf) Hle.
  unfold Scheduler.sched_step. rewrite Hres.
  assert (Hroute : Scheduler.route steps sender ev = inr extract_step).
  { destruct i as [|j]; simpl in Hf.
    - now inversion Hf.
    - destruct (nth_output passage j); [|discriminate]. now inversion Hf. }
  assert (Hb : extract (Scheduler.store r) ev =
               (Scheduler.store r, inr [StopEvent "Max retries reached"]))
    by (apply extract_at_ceiling; lia).
  now rewrite (dispatch_returned steps r _ _ [] extract_step _ _ Hq Hroute Hb).
Qed.

(** As long as the outputs are rejected and the ceiling is not reached, the
    run stands before attempt [i] after [2 * i] iterations. *)
Lemma attempts_reached kwargs passage k i :
  kwargs !! "passage" = Some passage -> passage <> "" ->
  (forall j, (j < k)%nat ->
     exists o, nth_output passage j = Some o /\ valid o = false) ->
  (i <= k)%nat -> Z.of_nat i <= Z.max 0 max_retries ->
  at_attempt kwargs passage i (Scheduler.run_steps steps (2 * i) (run kwargs)).
Proof.
  intros Hk Hne Hrej. induction i as [|i IH]; intros Hik Him.
  - simpl. repeat split. now exists None, (StartEvent kwargs).
  - replace (2 * S i)%nat with (S (S (2 * i))) by lia. simpl Scheduler.run_steps.
    destruct (Hrej i) as (o & Ho & Hv); [lia|].
    assert (Hat : at_attempt kwargs passage i
                    (Scheduler.run_steps steps (2 * i) (run kwargs)))
      by (apply IH; lia).
    destruct (extract_attempt kwargs passage i _ o Hk Hne Hat) as (H1 & H2 & H3 & H4);
      [lia|assumption|].
    now apply validate_rejects with o.
Qed.

(** C1, as the code has it.  On a [StartEvent] that carries a passage, when
    the first [k] outputs of the model fail validation and the next one
    passes: with [k < max_retries] the run ends with that validated output,
    and with [k >= max_retries] it ends with the result "Max retries
    reached".  (Without a passage the run ends before the loop is entered,
    see [retry_loop_without_passage].) *)
Theorem retry_loop_with_passage kwargs passage k output :
  kwargs !! "passage" = Some passage -> passage <> "" ->
  (forall j, (j < k)%nat ->
     exists o, nth_output passage j = Some o /\ valid o = false) ->
  nth_output passage k = Some output -> valid output = true ->
  (Z.of_nat k < max_retries ->
   forall n, (2 * k + 2 <= n)%nat ->
     Scheduler.result (Scheduler.run_steps steps n (run kwargs)) =
       Some (Stopped output))
  /\ (max_retries <= Z.of_nat k ->
      forall n, (2 * Z.to_nat max_retries + 1 <= n)%nat ->
        Scheduler.result (Scheduler.run_steps steps n (run kwargs)) =
          Some (Stopped "Max retries reached")).
Proof.
  intros Hk Hne Hrej Hout Hval. split.
  - intros Hlt n Hn.
    assert (Hat : at_attempt kwargs passage k
                    (Scheduler.run_steps steps (2 * k) (run kwargs)))
      by (apply attempts_reached with k; try assumption; lia).
    destruct (extract_attempt kwargs passage k _ output Hk Hne Hat Hlt Hout)
      as (H1 & H2 & _).
    pose proof (validate_accepts passage _ output H1 H2 Hval) as Hend.
    change (Scheduler.sched_step steps
              (Scheduler.sched_step steps
                 (Scheduler.run_steps steps (2 * k) (run kwargs))))
      with (Scheduler.run_steps steps (S (S (2 * k))) (run kwargs)) in Hend.
    rewrite (run_steps_stable _ _ n _ Hend) by lia. exact Hend.
  - intros Hle n Hn.
    assert (Hat : at_attempt kwargs passage (Z.to_nat max_retries)
                    (Scheduler.run_steps steps (2 * Z.to_nat max_retries) (run kwargs)))
      by (apply attempts_reached with k; try assumption; lia).
    pose proof (ceiling_reached _ _ _ _ Hat) as Hend.
    change (Scheduler.sched_step steps
              (Scheduler.run_steps steps (2 * Z.to_nat max_retries) (run kwargs)))
      with (Scheduler.run_steps steps (S (2 * Z.to_nat max_retries)) (run kwargs))
      in Hend.
    specialize (Hend ltac:(lia)).
    rewrite (run_steps_stable _ _ n _ Hend) by lia. exact Hend.
Qed.

End reflection_facts.

(** The run of the notebook: the first output is malformed, the second one
    parses.  The run ends with the second output after two attempts. *)
Example reflection_scenario :
  let r := Scheduler.run_steps
             (Reflection.steps 3 (Reflection.sample_llm 1)
                Reflection.sample_validator "")
             4 (Reflection.run Reflection.sample_kwargs) in
  Scheduler.result r = Some (Stopped Reflection.empty_collection)
  /\ Reflection.store (Scheduler.store r) !! "retries" = Some 2
  /\ List.map (fun i => fst (fst i)) (Scheduler.log r)
     = ["extract"; "validate"; "extract"; "validate"].
Proof. vm_compute. repeat split. Qed.

(** The same run under a timeout of one time unit fails with
    [TimeoutError] after the first attempt, and a run cancelled after the
    first attempt is marked cancelled; in both the counter stays readable. *)
Example reflection_times_out :
  let r := Scheduler.run_ticks
             (Reflection.steps 3 (Reflection.sample_llm 1)
                Reflection.sample_validator "")
             1 (fun _ => Scheduler.Elapse 0) 5
             (Reflection.run Reflection.sample_kwargs) in
  Scheduler.result r = Some Timeout
  /\ Reflection.store (Scheduler.store r) !! "retries" = Some 1
  /\ List.map (fun i => fst (fst i)) (Scheduler.log r) = ["extract"].
Proof. vm_compute. repeat split. Qed.

Example reflection_cancelled :
  let r := Scheduler.run_ticks
             (Reflection.steps 3 (Reflection.sample_llm 1)
                Reflection.sample_validator "")
             120
             (fun n => if (n =? 1)%nat then Scheduler.CancelRequest
                       else Scheduler.Elapse 0)
             5 (Reflection.run Reflection.sample_kwargs) in
  Scheduler.result r = Some Cancelled
  /\ Reflection.store (Scheduler.store r) !! "retries" = Some 1
  /\ List.map (fun i => fst (fst i)) (Scheduler.log r) = ["extract"].
Proof. vm_compute. repeat split. Qed.

(** C1 fails as stated: the ceiling is 3 and the validator accepts the very
    first output of the model ([k = 0]), yet the run on a [StartEvent]
    without passage ends with the request for input, which is neither the
    validated output nor the max-retries result. *)
Lemma retry_loop_without_passage :
  let steps := Reflection.steps 3 (Reflection.sample_llm 0)
                 Reflection.sample_validator "" in
  (forall prompt, exists o,
      Reflection.sample_llm 0 0 prompt = Some o
      /\ Reflection.valid Reflection.sample_validator o = true)
  /\ (forall n, (1 <= n)%nat ->
        Scheduler.result (Scheduler.run_steps steps n (Reflection.run ∅)) =
          Some (Stopped "Please provide some text in input"))
  /\ "Please provide some text in input" <> Reflection.empty_collection
  /\ "Please provide some text in input" <> "Max retries reached".
Proof.
  cbv zeta. split; [|split; [|split]].
  - intros prompt. exists Reflection.empty_collection. now split.
  - intros n Hn.
    rewrite (run_steps_stable 3 (Reflection.sample_llm 0)
               Reflection.sample_validator "" (Reflection.run ∅) 1 n
               (Stopped "Please provide some text in input"));
      [reflexivity|reflexivity|assumption].
  - discriminate.
  - discriminate.
Qed.

Lemma retry_loop_with_passage_witness :
  let steps := Reflection.steps 3 (Reflection.sample_llm 1)
                 Reflection.sample_validator "" in
  (0 < 3 ->
   forall n, (2 * 1 + 2 <= n)%nat ->
     Scheduler.result (Scheduler.run_steps steps n (Reflection.run Reflection.sample_kwargs)) =
       Some (Stopped Reflection.empty_collection))
  /\ (3 <= 1 ->
      forall n, (2 * Z.to_nat 3 + 1 <= n)%nat ->
        Scheduler.result (Scheduler.run_steps steps n (Reflection.run Reflection.sample_kwargs)) =
          Some (Stopped "Max retries reached")).
Proof.
  apply (retry_loop_with_passage 3 (Reflection.sample_llm 1)
           Reflection.sample_validator "" Reflection.sample_kwargs
           "I own two cars: a Fiat Panda with 45Hp and a Honda Civic with 330Hp."
           1%nat Reflection.empty_collection).
  - reflexivity.
  - discriminate.
  - intros j Hj. assert (j = 0%nat) as -> by lia.
    exists "{ cars: ". split; reflexivity.
  - reflexivity.
  - reflexivity.
Defined.

Lemma missing_passage_witness :
  let extract := Reflection.extract 3 (Reflection.sample_llm 0) "" in
  let steps := Reflection.steps 3 (Reflection.sample_llm 0)
                 Reflection.sample_validator "" in
  let ctx := Reflection.empty_context in
  extract ctx (Reflection.StartEvent ∅) =
    (Reflection.set_retries 1 ctx,
     inr [Reflection.StopEvent "Please provide some text in input"])
  /\ Reflection.prompts (Reflection.set_retries 1 ctx) = Reflection.prompts ctx
  /\ Reflection.store (Reflection.set_retries 1 ctx) !! "retries" = Some 1
  /\ let r := Scheduler.run_steps steps 1 (Reflection.run ∅) in
     Scheduler.result r = Some (Stopped "Please provide some text in input")
     /\ Reflection.prompts (Scheduler.store r) = []
     /\ Reflection.store (Scheduler.store r) !! "retries" = Some 1.
Proof.
  apply (missing_passage_stops_after_counting 3 (Reflection.sample_llm 0)
           Reflection.sample_validator "" ∅ Reflection.empty_context).
  - lia.
  - reflexivity.
  - reflexivity.
Defined.

(** *** The multi-agent workflow *)

(** The research agent of the notebook may hand off to the writer, and the
    writer is invoked; it may not hand off to the reviewer, and the run
    fails without invoking the reviewer. *)
Lemma handoff_witness :
  let legal := MultiAgent.agent_workflow (MultiAgent.scripted MultiAgent.legal_script) in
  let illegal := MultiAgent.agent_workflow (MultiAgent.scripted MultiAgent.illegal_script) in
  let r1 := MultiAgent.sample_run MultiAgent.legal_script 1 in
  let r2 := MultiAgent.sample_run MultiAgent.illegal_script 1 in
  Scheduler.log (Scheduler.tick legal 120 (Scheduler.Elapse 0) r1) =
    Scheduler.log r1
    ++ [("WriteAgent", MultiAgent.Handoff "WriteAgent" "The notes are recorded.",
         inr [MultiAgent.StopEvent "The report is written."])]
  /\ Scheduler.result (Scheduler.tick illegal 120 (Scheduler.Elapse 0) r2) =
       Some (Failed IllegalHandoffError)
  /\ forall sigs n,
       Scheduler.log
         (Scheduler.run_ticks illegal 120 sigs n
            (Scheduler.tick illegal 120 (Scheduler.Elapse 0) r2)) =
       Scheduler.log r2.
Proof.
  cbv zeta.
  assert (Hclock : forall script,
            (Scheduler.clock (MultiAgent.sample_run script 1) < 120)%nat)
    by (intros script; vm_compute; lia).
  split.
  - refine (proj1 (proj2 (handoff_checked_against_allow_list
                (MultiAgent.agent_workflow (MultiAgent.scripted MultiAgent.legal_script))
                120 0 (MultiAgent.sample_run MultiAgent.legal_script 1)
                "ResearchAgent"
                (MultiAgent.Handoff "WriteAgent" "The notes are recorded.")
                "WriteAgent" []
                (MultiAgent.agent_step (MultiAgent.scripted MultiAgent.legal_script)
                   "ResearchAgent" MultiAgent.research_agent)
                (MultiAgent.agent_step (MultiAgent.scripted MultiAgent.legal_script)
                   "ResearchAgent" MultiAgent.write_agent)
                eq_refl (Hclock _) eq_refl eq_refl eq_refl eq_refl)) _).
    now left.
  - refine (proj2 (proj2 (handoff_checked_against_allow_list
                (MultiAgent.agent_workflow (MultiAgent.scripted MultiAgent.illegal_script))
                120 0 (MultiAgent.sample_run MultiAgent.illegal_script 1)
                "ResearchAgent"
                (MultiAgent.Handoff "ReviewAgent" "Skip the writer.")
                "ReviewAgent" []
                (MultiAgent.agent_step (MultiAgent.scripted MultiAgent.illegal_script)
                   "ResearchAgent" MultiAgent.research_agent)
                (MultiAgent.agent_step (MultiAgent.scripted MultiAgent.illegal_script)
                   "ResearchAgent" MultiAgent.review_agent)
                eq_refl (Hclock _) eq_refl eq_refl eq_refl eq_refl)) _).
    intros [Heq|[]]. discriminate.
Defined.

(** *** The story workflow *)

Section story_facts.
Variable max_steps : Z.
Variable structured_predict : Story.template -> string -> Story.Segment.
Variable uuid4 : nat -> string.
Variable input : string -> string.

Import Story StoryRef.

Local Abbreviation create_segment :=
  (StoryRef.create_segment max_steps structured_predict uuid4).
Local Abbreviation prompt_human := (StoryRef.prompt_human input).

Lemma read_block_lt (h : list object) x b :
  read_block h x = Some b -> (x < length h)%nat.
Proof.
  unfold read_block. destruct (h !! x) as [o|] eqn:Hx; [|discriminate].
  intros _. now apply lookup_lt_Some in Hx.
Qed.

Lemma read_list_lt (h : list object) l items :
  read_list h l = Some items -> (l < length h)%nat.
Proof.
  unfold read_list. destruct (h !! l) as [o|] eqn:Hl; [|discriminate].
  intros _. now apply lookup_lt_Some in Hl.
Qed.

(** A location holds a block or a list, not both. *)
Lemma block_is_not_list (h : list object) x l b items :
  read_block h x = Some b -> read_list h l = Some items -> x <> l.
Proof.
  unfold read_block, read_list. intros Hx Hl ->.
  destruct (h !! l) as [[?|?]|]; discriminate.
Qed.

(** Writing to another location, or growing the heap, leaves a block as it
    was. *)
Lemma read_block_insert_ne (h : list object) l o x :
  x <> l -> read_block (<[l := o]> h) x = read_block h x.
Proof. intros Hne. unfold read_block. now rewrite list_lookup_insert_ne. Qed.

Lemma read_block_app (h tl : list object) x b :
  read_block h x = Some b -> read_block (h ++ tl) x = Some b.
Proof.
  intros Hx. pose proof (read_block_lt _ _ _ Hx) as Hlt.
  unfold read_block in *. now rewrite lookup_app_l.
Qed.

Lemma read_block_insert_eq (h : list object) x b :
  (x < length h)%nat -> read_block (<[x := OBlock b]> h) x = Some b.
Proof. intros Hlt. unfold read_block. now rewrite list_lookup_insert_eq. Qed.

Lemma read_list_insert_eq (h : list object) l items :
  (l < length h)%nat -> read_list (<[l := OList items]> h) l = Some items.
Proof. intros Hlt. unfold read_list. now rewrite list_lookup_insert_eq. Qed.

Lemma read_list_insert_ne (h : list object) l o x :
  x <> l -> read_list (<[l := o]> h) x = read_list h x.
Proof. intros Hne. unfold read_list. now rewrite list_lookup_insert_ne. Qed.

(** What [get_blocks] hands out is a list object whose items are blocks. *)
Lemma get_blocks_store ctx ctx0 l :
  get_blocks ctx = (ctx0, l) ->
  store ctx0 = store ctx /\ uuids ctx0 = uuids ctx
  /\ (store ctx !! "blocks" = Some l /\ heap ctx0 = heap ctx
      \/ store ctx !! "blocks" = None /\ heap ctx0 = heap ctx ++ [OList []]
         /\ l = length (heap ctx)).
Proof.
  unfold get_blocks. destruct (store ctx !! "blocks") as [l'|];
    intros Hg; inversion Hg; subst; simpl;
    (split; [reflexivity|split; [reflexivity|]]); [left|right];
    repeat split; reflexivity.
Qed.

(** The shape of an invocation of [create_segment] that returns a
    [NewBlockEvent]. *)
Lemma create_segment_new_block ctx ev ctx1 bl :
  create_segment ctx ev = (ctx1, inr [NewBlockEvent bl]) ->
  exists ctx0 l items bs,
    get_blocks ctx = (ctx0, l)
    /\ read_list (heap ctx0) l = Some items
    /\ mapM (read_block (heap ctx0)) items = Some bs
    /\ bl = length (heap ctx0)
    /\ let b := {| id_ := uuid4 (uuids ctx0);
                   segment := structured_predict SEGMENT_GENERATION_TEMPLATE
                                (running_story bs);
                   choice := None |} in
       ctx1 = {| heap := <[l := OList (items ++ [bl])]> (heap ctx0 ++ [OBlock b]);
                 store := <["blocks" := l]> (store ctx0);
                 uuids := S (uuids ctx0) |}.
Proof.
  unfold StoryRef.create_segment.
  destruct (get_blocks ctx) as [ctx0 l] eqn:Hg.
  unfold read_blocks.
  destruct (read_list (heap ctx0) l) as [items|] eqn:Hl; [|discriminate].
  destruct (mapM (read_block (heap ctx0)) items) as [bs|] eqn:Hbs; [|discriminate].
  destruct (Z.of_nat (length items) <? max_steps) eqn:Hlt; simpl;
    intros Hc; inversion Hc; subst.
  now exists ctx0, l, items, bs.
Qed.
(** The heap after [create_segment] has appended a new block [b] to the
    list at [l], and after [prompt_human] has then written [b'] over it:
    the list read through [l] ends with the block as last written. *)
Lemma heap_after_choice (h0 : list object) l items bs b b' :
  read_list h0 l = Some items ->
  mapM (read_block h0) items = Some bs ->
  let bl := length h0 in
  let h1 := <[l := OList (items ++ [bl])]> (h0 ++ [OBlock b]) in
  let h3 := <[bl := OBlock b']> h1 in
  let h4 := <[l := OList (items ++ [bl])]> h3 in
  read_block h1 bl = Some b
  /\ read_blocks h1 l = Some (bs ++ [b])
  /\ read_list h3 l = Some (items ++ [bl])
  /\ read_block h4 bl = Some b'
  /\ read_blocks h4 l = Some (bs ++ [b']).
Proof.
  intros Hl Hbs bl h1 h3 h4.
  pose proof (read_list_lt _ _ _ Hl) as Hlt.
  assert (Hne : bl <> l) by (unfold bl; lia).
  assert (Hlen1 : length h1 = S (length h0)).
  { unfold h1. rewrite length_insert, length_app. simpl. lia. }
  assert (Hlen3 : length h3 = S (length h0)).
  { unfold h3. now rewrite length_insert. }
  apply mapM_Some in Hbs.
  assert (Hb1 : read_block h1 bl = Some b).
  { unfold h1. rewrite read_block_insert_ne by assumption.
    unfold read_block. now rewrite list_lookup_middle. }
  assert (Hl1 : read_list h1 l = Some (items ++ [bl])).
  { unfold h1. apply read_list_insert_eq. rewrite length_app. simpl. lia. }
  assert (Hitems1 : Forall2 (fun x y => read_block h1 x = Some y) items bs).
  { eapply Forall2_impl; [exact Hbs|]. intros x y Hx. simpl in Hx.
    unfold h1. rewrite read_block_insert_ne
      by (eapply block_is_not_list; eassumption).
    now apply read_block_app. }
  assert (Hb4 : read_block h4 bl = Some b').
  { unfold h4. rewrite read_block_insert_ne by assumption.
    unfold h3. apply read_block_insert_eq. lia. }
  assert (Hitems4 : Forall2 (fun x y => read_block h4 x = Some y) items bs).
  { eapply Forall2_impl; [exact Hbs|]. intros x y Hx. simpl in Hx.
    pose proof (read_block_lt _ _ _ Hx) as Hxlt.
    unfold h4. rewrite read_block_insert_ne
      by (eapply block_is_not_list; eassumption).
    unfold h3. rewrite read_block_insert_ne by (unfold bl; lia).
    unfold h1. rewrite read_block_insert_ne
      by (eapply block_is_not_list; eassumption).
    now apply read_block_app. }
  split; [assumption|]. split.
  { unfold read_blocks. rewrite Hl1. apply mapM_Some.
    apply Forall2_app; [assumption|]. now repeat constructor. }
  split.
  { unfold h3. rewrite read_list_insert_ne by (intros Heq; now apply Hne).
    assumption. }
  split; [assumption|].
  unfold read_blocks, h4. rewrite read_list_insert_eq by lia.
  apply mapM_Some. apply Forall2_app; [assumption|]. now repeat constructor.
Qed.

(** After [create_segment] has returned a [NewBlockEvent], [prompt_human]
    on that event writes the choice into the block object that the event
    and the stored list share. *)
Lemma prompt_human_after_create ctx ev ctx1 bl :
  create_segment ctx ev = (ctx1, inr [NewBlockEvent bl]) ->
  exists l bs b h,
    store ctx1 !! "blocks" = Some l
    /\ read_block (heap ctx1) bl = Some b
    /\ read_blocks (heap ctx1) l = Some (bs ++ [b])
    /\ choice b = None
    /\ let b' := set_choice (input (human_prompt b)) b in
       prompt_human ctx1 (NewBlockEvent bl) =
         ({| heap := h; store := <["block" := l]> (store ctx1);
             uuids := uuids ctx1 |},
          inr [HumanChoiceEvent (id_ b)])
       /\ read_block h bl = Some b'
       /\ read_blocks h l = Some (bs ++ [b']).
Proof.
  intros Hc.
  apply create_segment_new_block in Hc
    as (ctx0 & l & items & bs & Hg & Hl & Hbs & -> & Hctx1).
  cbv zeta in Hctx1.
  set (b := {| id_ := uuid4 (uuids ctx0);
               segment := structured_predict SEGMENT_GENERATION_TEMPLATE
                            (running_story bs);
               choice := None |}) in *.
  set (b' := set_choice (input (human_prompt b)) b).
  destruct (heap_after_choice (heap ctx0) l items bs b b' Hl Hbs)
    as (Hb1 & Hbs1 & Hl3 & Hb4 & Hbs4).
  exists l, bs, b. eexists. subst ctx1. cbn [heap store uuids].
  split; [apply lookup_insert_eq|]. split; [exact Hb1|].
  split; [exact Hbs1|]. split; [reflexivity|].
  split; [|split; [exact Hb4|exact Hbs4]].
  unfold StoryRef.prompt_human. cbn [heap store uuids]. rewrite Hb1.
  rewrite lookup_insert_eq. fold b'. rewrite Hl3.
  destruct (items ++ [length (heap ctx0)]) as [|i rest] eqn:Hit.
  { now destruct items. }
  rewrite <- Hit.
  rewrite (list_insert_id (items ++ [length (heap ctx0)])); [reflexivity|].
  rewrite length_app. simpl. rewrite Nat.add_1_r. simpl.
  now apply list_lookup_middle.
Qed.

(** [create_segment] leaves every block object as it was. *)
Lemma create_segment_keeps_blocks ctx ev ctx' ret x b :
  create_segment ctx ev = (ctx', ret) ->
  read_block (heap ctx) x = Some b -> read_block (heap ctx') x = Some b.
Proof.
  unfold StoryRef.create_segment.
  destruct (get_blocks ctx) as [ctx0 l] eqn:Hg.
  apply get_blocks_store in Hg as (_ & _ & Hh).
  intros Hc Hx.
  assert (Hx0 : read_block (heap ctx0) x = Some b).
  { destruct Hh as [[_ ->]|(_ & -> & _)]; [assumption|now apply read_block_app]. }
  unfold read_blocks in Hc.
  destruct (read_list (heap ctx0) l) as [items|] eqn:Hl;
    [|now inversion Hc; subst].
  destruct (mapM (read_block (heap ctx0)) items) as [bs|];
    [|now inversion Hc; subst].
  assert (Hx1 : forall o tl,
            read_block (<[l := o]> (heap ctx0 ++ tl)) x = Some b).
  { intros o tl. rewrite read_block_insert_ne
      by (eapply block_is_not_list; eassumption).
    now apply read_block_app. }
  destruct (negb (Z.of_nat (length items) <? max_steps));
    inversion Hc; subst; apply Hx1.
Qed.

(** [prompt_human] writes the choice into the block of its event. *)
Lemma prompt_human_sets_choice ctx bl b ctx' ret :
  prompt_human ctx (NewBlockEvent bl) = (ctx', ret) ->
  read_block (heap ctx) bl = Some b ->
  is_Some (store ctx !! "blocks") ->
  read_block (heap ctx') bl = Some (set_choice (input (human_prompt b)) b).
Proof.
  unfold StoryRef.prompt_human. intros Hp Hb [l Hl].
  rewrite Hb, Hl in Hp.
  pose proof (read_block_lt _ _ _ Hb) as Hlt.
  set (b' := set_choice (input (human_prompt b)) b) in *.
  assert (Hb3 : read_block (<[bl := OBlock b']> (heap ctx)) bl = Some b')
    by now apply read_block_insert_eq.
  destruct (read_list (<[bl := OBlock b']> (heap ctx)) l) as [[|i items]|] eqn:Hl3;
    inversion Hp; subst; simpl; try assumption.
  rewrite read_block_insert_ne; [assumption|].
  eapply block_is_not_list; eassumption.
Qed.



(** C5, as the code has it.  [create_segment] leaves the event it consumed,
    a [StartEvent] or a [HumanChoiceEvent], with the kind and the payload it
    had; it changes no block, so that every event other than a [StopEvent]
    reads after it as it read before.  [prompt_human] changes the event it
    consumed: when the store holds "blocks", the block the [NewBlockEvent]
    carries has its [choice] set to the answer of the reader, while the
    event is still a [NewBlockEvent] and the [id_] and the [segment] of the
    block are kept. *)
Theorem events_change_only_through_shared_block :
  (forall ctx ev ctx' ret,
      create_segment ctx ev = (ctx', ret) ->
      Scheduler.accepts
        (StoryRun.create_segment_step max_steps structured_predict uuid4) ev = true ->
      is_Some (view (heap ctx) ev)
      /\ view (heap ctx') ev = view (heap ctx) ev)
  /\ (forall ctx ev ctx' ret bl b,
        create_segment ctx ev = (ctx', ret) ->
        read_block (heap ctx) bl = Some b ->
        read_block (heap ctx') bl = Some b)
  /\ (forall ctx ev ctx' ret e,
        create_segment ctx ev = (ctx', ret) ->
        match e with StopEvent _ => False | _ => True end ->
        is_Some (view (heap ctx) e) ->
        view (heap ctx') e = view (heap ctx) e)
  /\ (forall ctx bl b ctx' ret,
        prompt_human ctx (NewBlockEvent bl) = (ctx', ret) ->
        read_block (heap ctx) bl = Some b ->
        is_Some (store ctx !! "blocks") ->
        view (heap ctx) (NewBlockEvent bl) = Some (StoryValue.NewBlockEvent b)
        /\ view (heap ctx') (NewBlockEvent bl) =
             Some (StoryValue.NewBlockEvent
                     {| id_ := id_ b; segment := segment b;
                        choice := Some (input (human_prompt b)) |})).
Proof.
  split; [|split; [|split]].
  - intros ctx ev ctx' ret Hc Ha.
    destruct ev as [|l|bl|i]; try discriminate Ha; split; try reflexivity;
      now eexists.
  - intros ctx ev ctx' ret bl b Hc Hb.
    exact (create_segment_keeps_blocks _ _ _ _ _ _ Hc Hb).
  - intros ctx ev ctx' ret e Hc Hk [v Hv].
    destruct e as [|l|bl|i]; try reflexivity; [contradiction|].
    simpl in *. destruct (read_block (heap ctx) bl) as [b|] eqn:Hb;
      [|discriminate].
    now rewrite (create_segment_keeps_blocks _ _ _ _ _ _ Hc Hb).
  - intros ctx bl b ctx' ret Hp Hb Hs. simpl. rewrite Hb.
    split; [reflexivity|].
    now rewrite (prompt_human_sets_choice _ _ _ _ _ Hp Hb Hs).
Qed.

End story_facts.

(** C5 fails as stated.  The first [create_segment] of a run returns a
    [NewBlockEvent] whose block has no choice; after [prompt_human] has
    consumed that event, the same event reads with the choice of the
    reader. *)
Lemma new_block_event_is_mutated :
  let create := StoryRef.create_segment 3 Story.sample_predict Story.sample_uuid4 in
  let prompt := StoryRef.prompt_human Story.sample_input in
  let ctx1 := fst (create StoryRef.empty_context StoryRef.StartEvent) in
  let ev := StoryRef.NewBlockEvent 1 in
  let ctx2 := fst (prompt ctx1 ev) in
  let block :=
    {| Story.id_ := "block-0";
       Story.segment := Story.sample_predict Story.SEGMENT_GENERATION_TEMPLATE "";
       Story.choice := None |} in
  snd (create StoryRef.empty_context StoryRef.StartEvent) = inr [ev]
  /\ StoryRef.view (StoryRef.heap ctx1) ev = Some (StoryValue.NewBlockEvent block)
  /\ StoryRef.view (StoryRef.heap ctx2) ev =
       Some (StoryValue.NewBlockEvent (Story.set_choice "Follow the map" block))
  /\ StoryRef.view (StoryRef.heap ctx2) ev <> StoryRef.view (StoryRef.heap ctx1) ev.
Proof.
  cbv zeta. split; [reflexivity|]. split; [reflexivity|].
  split; [reflexivity|]. vm_compute. discriminate.
Qed.


(** *** The shared state of the multi-agent workflow *)

Section state_facts.
Import MultiAgent.

(** The side the store takes when the body of a scope raises. *)
Variable on_raise : exit_policy.

Local Abbreviation scoped_edit := (MultiAgent.scoped_edit on_raise).
Local Abbreviation record_notes := (MultiAgent.record_notes on_raise).
Local Abbreviation write_report := (MultiAgent.write_report on_raise).

Lemma scoped_edit_returns {A : Type} (st : State) key v
    (scope : gmap string value -> gmap string value * exit_path A) v' a :
  st !! key = Some v -> scope v = (v', Returns a) ->
  scoped_edit key scope st = (<[key := v']> st, Returns a).
Proof.
  intros Hk Hs. unfold MultiAgent.scoped_edit, edit_state, enter, commit.
  now rewrite Hk, Hs.
Qed.

Lemma scoped_edit_raises {A : Type} (st : State) key v
    (scope : gmap string value -> gmap string value * exit_path A) v' e :
  st !! key = Some v -> scope v = (v', Raises e) ->
  scoped_edit key scope st =
    (match on_raise with
     | CommitOnRaise => <[key := v']> st
     | DiscardOnRaise => st
     end, Raises e).
Proof.
  intros Hk Hs. unfold MultiAgent.scoped_edit, edit_state, enter, commit, discard.
  rewrite Hk, Hs. now destruct on_raise.
Qed.




End state_facts.



(** ** Further properties of the code *)

Section scheduler_invariants.
Context {Event Store Result : Type} `{EventKind Event Result}.
Variable steps : list (Scheduler.Step Event Store).

Import Scheduler.

(** An invariant may speak of the outcome: it is then checked against the
    two outcomes the engine itself records. *)
Lemma run_invariant_outcomes (P : Scheduler.Run Event Store Result -> Prop) :
  (forall r, result r = None -> P r -> P (dispatch steps r)) ->
  (forall r, result r = None -> P r -> P (finish Cancelled r)) ->
  (forall r, result r = None -> P r -> P (finish Timeout r)) ->
  (forall r d, P r -> P (advance d r)) ->
  forall timeout sigs n r, P r -> P (run_ticks steps timeout sigs n r).
Proof.
  intros Hdispatch Hcancel Htimeout Hadvance timeout sigs n r HP.
  induction n as [|n IH]; simpl; [assumption|].
  set (r' := run_ticks steps timeout sigs n r) in *. unfold tick.
  destruct (result r') eqn:Hr; [assumption|].
  destruct (sigs n) as [d|]; [|now apply Hcancel].
  destruct (timeout <=? clock r')%nat; [now apply Htimeout|].
  now apply Hadvance, Hdispatch.
Qed.

Lemma run_steps_invariant (P : Scheduler.Run Event Store Result -> Prop) :
  (forall r, result r = None -> P r -> P (dispatch steps r)) ->
  forall n r, P r -> P (run_steps steps n r).
Proof.
  intros Hdispatch n r HP. induction n as [|n IH]; simpl; [assumption|].
  unfold sched_step. destruct (result (run_steps steps n r)) eqn:Hr;
    [assumption|now apply Hdispatch].
Qed.

End scheduler_invariants.

Section reflection_runs.
Variable max_retries : Z.
Variable acomplete : nat -> string -> option string.
Variable model_validate_json : string -> string + Reflection.CarCollection.
Variable schema_json : string.

Import Reflection.

Local Abbreviation Run := (Scheduler.Run Event Context string).
Local Abbreviation extract := (Reflection.extract max_retries acomplete schema_json).
Local Abbreviation validate := (Reflection.validate model_validate_json).
Local Abbreviation extract_step := (Reflection.extract_step max_retries acomplete schema_json).
Local Abbreviation validate_step := (Reflection.validate_step model_validate_json).
Local Abbreviation steps :=
  (Reflection.steps max_retries acomplete model_validate_json schema_json).
Local Abbreviation valid := (Reflection.valid model_validate_json).

(** The events that trigger a step, with the step the engine picks. *)
Lemma route_total sender ev :
  stop_result ev = None ->
  (Scheduler.route steps sender ev = inr extract_step
   /\ ((exists kwargs, ev = StartEvent kwargs)
       \/ exists e o p, ev = ValidationErrorEvent e o p))
  \/ (Scheduler.route steps sender ev = inr validate_step
      /\ exists o p, ev = ExtractionDone o p).
Proof.
  destruct ev as [kwargs|res|o p|e o p]; simpl; intros Hs;
    try discriminate; [left|right|left]; (split; [reflexivity|]); eauto.
Qed.

(** What one invocation of a step returns: a failure of the model, or one
    event. *)
Lemma extract_returns ctx ev :
  (exists kwargs, ev = StartEvent kwargs)
  \/ (exists e o p, ev = ValidationErrorEvent e o p) ->
  exists ctx',
    extract ctx ev = (ctx', inl ModelError)
    \/ extract ctx ev = (ctx', inr [StopEvent "Max retries reached"])
    \/ extract ctx ev = (ctx', inr [StopEvent "Please provide some text in input"])
    \/ exists o p,
         extract ctx ev = (ctx', inr [ExtractionDone o p])
         /\ get_retries ctx' = get_retries ctx + 1
         /\ match ev with
            | StartEvent kwargs => kwargs !! "passage" = Some p
            | ValidationErrorEvent _ _ passage => p = passage
            | _ => True
            end.
Proof.
  intros Hev.
  destruct (Z.le_gt_cases max_retries (get_retries ctx)) as [Hle|Hlt].
  { exists ctx. right. left. now apply extract_at_ceiling. }
  rewrite (extract_below_ceiling _ _ _ _ _ Hlt). cbv zeta.
  set (ctx' := set_retries (get_retries ctx + 1) ctx).
  assert (Hg : get_retries ctx' = get_retries ctx + 1)
    by apply get_retries_set.
  assert (Hc : forall p rp (Q : string -> Prop), Q p -> exists c,
             complete acomplete schema_json ctx' p rp = (c, inl ModelError)
             \/ complete acomplete schema_json ctx' p rp =
                  (c, inr [StopEvent "Max retries reached"])
             \/ complete acomplete schema_json ctx' p rp =
                  (c, inr [StopEvent "Please provide some text in input"])
             \/ exists o p',
                  complete acomplete schema_json ctx' p rp =
                    (c, inr [ExtractionDone o p'])
                  /\ get_retries c = get_retries ctx + 1 /\ Q p').
  { intros p rp Q HQ. rewrite complete_spec. cbv zeta. eexists.
    destruct (acomplete _ _) as [o|]; [|now left].
    right. right. right. exists o, p. now repeat split. }
  destruct Hev as [[kwargs ->]|(e & o & p & ->)].
  - destruct (kwargs !! "passage") as [p|] eqn:Hp; simpl.
    + destruct (negb (String.eqb p "")).
      * apply (Hc p "" (fun p' => Some p = Some p')). reflexivity.
      * exists ctx'. right. right. now left.
    + exists ctx'. right. right. now left.
  - apply (Hc p _ (fun p' => p' = p)). reflexivity.
Qed.

Lemma validate_returns ctx o p :
  (valid o = true /\ validate ctx (ExtractionDone o p) = (ctx, inr [StopEvent o]))
  \/ (valid o = false
      /\ exists e, validate ctx (ExtractionDone o p) =
                     (ctx, inr [ValidationErrorEvent e o p])).
Proof.
  unfold Reflection.validate, Reflection.valid.
  destruct (model_validate_json o) as [e|cars]; [right|left];
    (split; [reflexivity|]); eauto.
Qed.

Local Abbreviation expected_outcome :=
  (ReflectionRun.expected_outcome model_validate_json).

(** While a run is going no [StopEvent] waits in the queue, and once it is
    over its outcome is an expected one. *)
Lemma outcome_invariant kwargs timeout sigs n :
  let r := Scheduler.run_ticks steps timeout sigs n (run kwargs) in
  (Scheduler.result r = None ->
   Forall (fun qe => stop_result (snd qe) = None) (Scheduler.queue r))
  /\ forall o, Scheduler.result r = Some o -> expected_outcome o.
Proof.
  apply (run_invariant_outcomes steps
    (fun r =>
       (Scheduler.result r = None ->
        Forall (fun qe => stop_result (snd qe) = None) (Scheduler.queue r))
       /\ forall o, Scheduler.result r = Some o -> expected_outcome o)).
  - intros r Hr [Hq _]. specialize (Hq Hr).
    destruct (dispatch_cases steps r) as [[_ ->]|[(s & e & q & x & Hqr & Hroute & ->)
      |[(s & e & q & x & st & y & Hqr & Hroute & Hb & ->)
      |(s & e & q & x & st & y & Hqr & Hroute & Hb & ->)]]]; simpl.
    + split; [now intros _|]. rewrite Hr. discriminate.
    + exfalso. rewrite Hqr in Hq. inversion Hq as [|? ? He _]; subst.
      simpl in He.
      destruct (route_total s e He) as [[Hx _]|[Hx _]]; congruence.
    + split; [discriminate|]. intros o Ho. inversion Ho; subst; clear Ho.
      rewrite Hqr in Hq. inversion Hq as [|? ? He _]; subst. simpl in He.
      destruct (route_total s e He) as [[Hx Hev]|[Hx (o & p & ->)]];
        rewrite Hx in Hroute; inversion Hroute; subst;
        cbn [Scheduler.body Reflection.extract_step Reflection.validate_step] in Hb.
      * destruct (extract_returns (Scheduler.store r) e Hev)
          as (c & [H1|[H1|[H1|(o & p & H1 & _)]]]);
          rewrite H1 in Hb; inversion Hb; subst. now left.
      * destruct (validate_returns (Scheduler.store r) o p)
          as [[_ H1]|[_ (e' & H1)]]; rewrite H1 in Hb; inversion Hb.
    + rewrite Hqr in Hq. inversion Hq as [|? ? He Hq']; subst. simpl in He.
      destruct (route_total s e He) as [[Hx Hev]|[Hx (o & p & ->)]];
        rewrite Hx in Hroute; inversion Hroute; subst;
        cbn [Scheduler.body Reflection.extract_step Reflection.validate_step] in Hb.
      * destruct (extract_returns (Scheduler.store r) e Hev)
          as (c & [H1|[H1|[H1|(o & p & H1 & _)]]]);
          rewrite H1 in Hb; inversion Hb; subst; simpl.
        -- split; [discriminate|]. intros o Ho. inversion Ho. now left.
        -- split; [discriminate|]. intros o Ho. inversion Ho. right. now left.
        -- split; [|discriminate]. intros _.
           apply Forall_app. split; [assumption|]. now repeat constructor.
      * destruct (validate_returns (Scheduler.store r) o p)
          as [[Hv H1]|[_ (e' & H1)]]; rewrite H1 in Hb; inversion Hb; subst;
          simpl.
        -- split; [discriminate|]. intros o' Ho. inversion Ho.
           right. now right.
        -- split; [|discriminate]. intros _.
           apply Forall_app. split; [assumption|]. now repeat constructor.
  - intros r Hr _. split; [discriminate|]. simpl. intros o Ho.
    inversion Ho. right. now right.
  - intros r Hr _. split; [discriminate|]. simpl. intros o Ho.
    inversion Ho. right. now left.
  - now intros r d.
  - split; [|discriminate]. intros _. now repeat constructor.
Qed.

(** X1.  Whatever the model answers and however the run is timed or
    cancelled, a run of the reflection workflow that hands back a result
    hands back one of the two messages of [extract] or an output that
    passes validation, and a run that fails does so with [ModelError],
    [TimeoutError] or [CancelledError]. *)
Theorem run_outcome_is_expected kwargs timeout sigs n o :
  Scheduler.result (Scheduler.run_ticks steps timeout sigs n (run kwargs)) = Some o ->
  expected_outcome o.
Proof. intros Ho. now apply (outcome_invariant kwargs timeout sigs n). Qed.

Lemma in_queue_arrived (r : Run) sender ev q :
  Scheduler.fifo r -> Scheduler.queue r = (sender, ev) :: q ->
  In ev (Scheduler.arrived r).
Proof.
  unfold Scheduler.fifo. intros -> ->. apply in_or_app. right. now left.
Qed.

Local Abbreviation before_extract := ReflectionRun.before_extract.

Lemma sched_step_over (r : Run) :
  (exists o, Scheduler.result r = Some o) ->
  exists o, Scheduler.result (Scheduler.sched_step steps r) = Some o.
Proof.
  intros [o Ho]. exists o. now rewrite (sched_step_terminal steps r o Ho).
Qed.

Lemma round_trip_or_end i (r : Run) :
  before_extract i r ->
  before_extract (S i) (Scheduler.sched_step steps (Scheduler.sched_step steps r)).
Proof.
  intros [Hover|(Hr & Hg & sender & ev & Hq & Hev)].
  { left. now apply sched_step_over, sched_step_over. }
  assert (Hroute : Scheduler.route steps sender ev = inr extract_step).
  { destruct Hev as [[kw ->]|(e & o & p & ->)]; reflexivity. }
  unfold Scheduler.sched_step at 2. rewrite Hr.
  destruct (extract_returns (Scheduler.store r) ev Hev)
    as (c & [H1|[H1|[H1|(o & p & H1 & Hc & _)]]]).
  - left. apply sched_step_over.
    rewrite (dispatch_raised steps r sender ev [] extract_step c _ Hq Hroute H1).
    now eexists.
  - left. apply sched_step_over.
    rewrite (dispatch_returned steps r sender ev [] extract_step c _ Hq Hroute H1).
    now eexists.
  - left. apply sched_step_over.
    rewrite (dispatch_returned steps r sender ev [] extract_step c _ Hq Hroute H1).
    now eexists.
  - rewrite (dispatch_returned steps r sender ev [] extract_step c _ Hq Hroute H1).
    unfold Scheduler.sched_step. simpl.
    destruct (validate_returns c o p) as [[_ H2]|[_ (e & H2)]].
    + left.
      erewrite dispatch_returned;
        [|reflexivity|apply route_extraction_done|exact H2].
      now eexists.
    + right.
      erewrite dispatch_returned;
        [|reflexivity|apply route_extraction_done|exact H2].
      simpl. split; [reflexivity|]. split; [lia|].
      eexists _, _. split; [reflexivity|]. right. eauto.
Qed.

Lemma before_extract_reached kwargs i :
  before_extract i (Scheduler.run_steps steps (2 * i) (run kwargs)).
Proof.
  induction i as [|i IH].
  - right. simpl. split; [reflexivity|]. split; [reflexivity|].
    exists None, (StartEvent kwargs). split; [reflexivity|]. left. eauto.
  - replace (2 * S i)%nat with (S (S (2 * i))) by lia.
    now apply round_trip_or_end.
Qed.

(** X3.  A run that is neither timed out nor cancelled is over after at most
    [2 * max_retries + 1] iterations (one iteration when the ceiling is not
    positive), whatever the model answers and whatever passes validation:
    the loop between [extract] and [validate] cannot go on for ever. *)
Theorem run_ends_within_ceiling kwargs n :
  (2 * Z.to_nat max_retries + 1 <= n)%nat ->
  exists o, Scheduler.result (Scheduler.run_steps steps n (run kwargs)) = Some o.
Proof.
  intros Hn.
  assert (Hend : exists o,
            Scheduler.result
              (Scheduler.run_steps steps (S (2 * Z.to_nat max_retries)) (run kwargs))
              = Some o).
  { change (Scheduler.run_steps steps (S (2 * Z.to_nat max_retries)) (run kwargs))
      with (Scheduler.sched_step steps
              (Scheduler.run_steps steps (2 * Z.to_nat max_retries) (run kwargs))).
    destruct (before_extract_reached kwargs (Z.to_nat max_retries))
      as [Hover|(Hr & Hg & sender & ev & Hq & Hev)].
    - now apply sched_step_over.
    - unfold Scheduler.sched_step. rewrite Hr.
      assert (Hroute : Scheduler.route steps sender ev = inr extract_step).
      { destruct Hev as [[kw ->]|(e & o & p & ->)]; reflexivity. }
      assert (Hb : extract (Scheduler.store (Scheduler.run_steps steps
                              (2 * Z.to_nat max_retries) (run kwargs))) ev =
                   (Scheduler.store (Scheduler.run_steps steps
                              (2 * Z.to_nat max_retries) (run kwargs)),
                    inr [StopEvent "Max retries reached"]))
        by (apply extract_at_ceiling; lia).
      rewrite (dispatch_returned steps _ sender ev [] extract_step _ _ Hq Hroute Hb).
      now eexists. }
  destruct Hend as [o Ho]. exists o.
  rewrite (run_steps_stable _ _ _ _ _ _ n _ Ho) by lia. exact Ho.
Qed.

(** X4.  With a ceiling that is not positive the first invocation of
    [extract] ends the run with "Max retries reached", passage or not: the
    store stays empty, no prompt is sent, and [validate] is never
    invoked. *)
Theorem nonpositive_ceiling_stops_at_once kwargs n :
  max_retries <= 0 -> (1 <= n)%nat ->
  let r := Scheduler.run_steps steps n (run kwargs) in
  Scheduler.result r = Some (Stopped "Max retries reached")
  /\ Scheduler.store r = empty_context
  /\ Scheduler.log r =
       [("extract", StartEvent kwargs, inr [StopEvent "Max retries reached"])].
Proof.
  intros Hm Hn.
  assert (Hb : extract empty_context (StartEvent kwargs) =
               (empty_context, inr [StopEvent "Max retries reached"])).
  { apply extract_at_ceiling. rewrite get_retries_empty. exact Hm. }
  assert (H1 : Scheduler.run_steps steps 1 (run kwargs) =
               Scheduler.dispatch steps (run kwargs)) by reflexivity.
  rewrite (dispatch_returned steps (run kwargs) None _ [] extract_step _ _
             eq_refl (route_start _ _ _ _ _ _) Hb) in H1.
  cbv zeta.
  rewrite (run_steps_stable max_retries acomplete model_validate_json schema_json
             (run kwargs) 1 n (Stopped "Max retries reached"));
    [|now rewrite H1|assumption].
  rewrite H1. simpl. now repeat split.
Qed.

Local Abbreviation nth_output :=
  (Reflection.nth_output acomplete model_validate_json schema_json).

(** X5.  When the first [k] outputs fail validation and the next call of the
    model raises, the run fails with [ModelError]; the attempt that failed
    has been counted and its prompt has been sent, so the counter reads
    [k + 1]. *)
Theorem model_failure_ends_run kwargs passage k n :
  kwargs !! "passage" = Some passage -> passage <> "" ->
  (forall j, (j < k)%nat ->
     exists o, nth_output passage j = Some o /\ valid o = false) ->
  nth_output passage k = None ->
  Z.of_nat k < max_retries ->
  (2 * k + 1 <= n)%nat ->
  let r := Scheduler.run_steps steps n (run kwargs) in
  Scheduler.result r = Some (Failed ModelError)
  /\ store (Scheduler.store r) !! "retries" = Some (Z.of_nat k + 1)
  /\ length (prompts (Scheduler.store r)) = S k.
Proof.
  intros Hk Hne Hrej Hnone Hlt Hn.
  destruct (attempts_reached max_retries acomplete model_validate_json schema_json
              kwargs passage k k Hk Hne Hrej (le_n k) ltac:(lia))
    as (Hres & Hg & Hp & sender & ev & Hq & Hf).
  set (r0 := Scheduler.run_steps steps (2 * k) (run kwargs)) in *.
  assert (Hroute : Scheduler.route steps sender ev = inr extract_step).
  { destruct k as [|j]; simpl in Hf.
    - now inversion Hf.
    - destruct (Reflection.nth_output _ _ _ passage j); [|discriminate].
      now inversion Hf. }
  assert (Hb : exists ctx',
             extract (Scheduler.store r0) ev = (ctx', inl ModelError)
             /\ store ctx' !! "retries" = Some (Z.of_nat k + 1)
             /\ length (prompts ctx') = S k).
  { assert (Hbelow : get_retries (Scheduler.store r0) < max_retries) by lia.
    rewrite (extract_below_ceiling _ _ _ _ _ Hbelow). cbv zeta.
    clear Hbelow. destruct k as [|j]; simpl in Hf, Hnone.
    - inversion Hf; subst ev. rewrite Hk. simpl.
      destruct (String.eqb_spec passage "") as [->|_]; [contradiction|]. simpl.
      rewrite complete_spec. simpl. rewrite Hnone.
      eexists. split; [reflexivity|]. simpl. rewrite lookup_insert_eq.
      now split.
    - destruct (Reflection.nth_output _ _ _ passage j) as [prev|];
        [|discriminate].
      inversion Hf; subst ev.
      rewrite complete_spec, reflection_prompt_nonempty. simpl.
      rewrite Hp. rewrite Hnone.
      eexists. split; [reflexivity|]. simpl. rewrite lookup_insert_eq, Hg.
      rewrite length_app, Hp. simpl. split; [reflexivity|lia]. }
  destruct Hb as (ctx' & Hb & Hret & Hlen).
  assert (Hend : Scheduler.run_steps steps (S (2 * k)) (run kwargs) =
                 {| Scheduler.queue := [];
                    Scheduler.store := ctx';
                    Scheduler.result := Some (Failed ModelError);
                    Scheduler.log :=
                      Scheduler.log r0 ++ [("extract", ev, inl ModelError)];
                    Scheduler.processed := Scheduler.processed r0 ++ [ev];
                    Scheduler.arrived := Scheduler.arrived r0;
                    Scheduler.clock := Scheduler.clock r0 |}).
  { change (Scheduler.run_steps steps (S (2 * k)) (run kwargs))
      with (Scheduler.sched_step steps r0).
    unfold Scheduler.sched_step. rewrite Hres.
    now rewrite (dispatch_raised steps r0 sender ev [] extract_step ctx' _
                   Hq Hroute Hb). }
  cbv zeta.
  rewrite (run_steps_stable max_retries acomplete model_validate_json schema_json
             (run kwargs) (S (2 * k)) n (Failed ModelError));
    [|now rewrite Hend|lia].
  rewrite Hend. simpl. now repeat split.
Qed.

End reflection_runs.

Section story_runs.
Variable max_steps : Z.
Variable structured_predict : Story.template -> string -> Story.Segment.
Variable uuid4 : nat -> string.
Variable input : string -> string.

Import Story StoryRef StoryRun.

Local Abbreviation create_segment :=
  (StoryRef.create_segment max_steps structured_predict uuid4).
Local Abbreviation prompt_human := (StoryRef.prompt_human input).
Local Abbreviation steps := (StoryRun.steps max_steps structured_predict uuid4 input).
Local Abbreviation told := (StoryRun.told structured_predict input).
Local Abbreviation between_rounds :=
  (StoryRun.between_rounds structured_predict input).

(** The list [create_segment] works on holds the blocks found in the store. *)
Lemma blocks_of_get ctx bs :
  blocks_of ctx = Some bs ->
  exists ctx0 l items,
    get_blocks ctx = (ctx0, l)
    /\ uuids ctx0 = uuids ctx
    /\ read_list (heap ctx0) l = Some items
    /\ mapM (read_block (heap ctx0)) items = Some bs.
Proof.
  unfold blocks_of, get_blocks.
  destruct (store ctx !! "blocks") as [l|].
  - unfold read_blocks.
    destruct (read_list (heap ctx) l) as [items|] eqn:Hl; [|discriminate].
    intros Hbs. now exists ctx, l, items.
  - intros Hbs. inversion Hbs; subst.
    eexists _, _, []. split; [reflexivity|]. split; [reflexivity|].
    split; [|reflexivity]. simpl. unfold read_list.
    now rewrite list_lookup_middle.
Qed.

(** One round: with fewer than [max_steps] blocks told, [create_segment]
    adds a block and [prompt_human] writes the answer of the reader into
    it, and the store shows the longer story. *)
Lemma round_adds_block ctx ev bs :
  blocks_of ctx = Some bs ->
  Z.of_nat (length bs) < max_steps ->
  exists ctx1 bl b ctx2,
    create_segment ctx ev = (ctx1, inr [NewBlockEvent bl])
    /\ prompt_human ctx1 (NewBlockEvent bl) = (ctx2, inr [HumanChoiceEvent (id_ b)])
    /\ blocks_of ctx2 = Some (bs ++ [set_choice (input (human_prompt b)) b])
    /\ segment b = structured_predict SEGMENT_GENERATION_TEMPLATE (running_story bs).
Proof.
  intros Hbs Hlt.
  destruct (blocks_of_get ctx bs Hbs) as (ctx0 & l & items & Hg & Hu & Hl & Hm).
  assert (Hlen : length items = length bs) by (eapply length_mapM; eassumption).
  set (b := {| id_ := uuid4 (uuids ctx0);
               segment := structured_predict SEGMENT_GENERATION_TEMPLATE
                            (running_story bs);
               choice := None |}).
  set (ctx1 := {| heap := <[l := OList (items ++ [length (heap ctx0)])]>
                            (heap ctx0 ++ [OBlock b]);
                  store := <["blocks" := l]> (store ctx0);
                  uuids := S (uuids ctx0) |}).
  assert (Hc : create_segment ctx ev = (ctx1, inr [NewBlockEvent (length (heap ctx0))])).
  { unfold StoryRef.create_segment. rewrite Hg. unfold read_blocks.
    rewrite Hl, Hm, Hlen.
    now rewrite (proj2 (Z.ltb_lt _ _) Hlt). }
  destruct (prompt_human_after_create max_steps structured_predict uuid4 input
              ctx ev ctx1 _ Hc)
    as (l' & bs' & b0 & h & Hs & _ & Hbs1 & _ & Hp & _ & Hbs2).
  assert (Hl' : l' = l).
  { unfold ctx1 in Hs. simpl in Hs. rewrite lookup_insert_eq in Hs. congruence. }
  subst l'.
  destruct (heap_after_choice (heap ctx0) l items bs b b Hl Hm)
    as (_ & Hbs1' & _).
  unfold ctx1 in Hbs1 at 1. simpl in Hbs1. rewrite Hbs1' in Hbs1.
  inversion Hbs1 as [Heq]. apply app_inj_tail in Heq as [<- <-].
  exists ctx1, (length (heap ctx0)), b.
  eexists. split; [exact Hc|]. split; [exact Hp|]. split; [|reflexivity].
  unfold blocks_of. cbn [store heap].
  rewrite lookup_insert_ne by discriminate. rewrite Hs. exact Hbs2.
Qed.

(** The last round: with [max_steps] blocks told, [create_segment] appends
    the closing block and stops. *)
Lemma last_round_stops ctx ev bs :
  blocks_of ctx = Some bs ->
  max_steps <= Z.of_nat (length bs) ->
  exists ctx1 l final,
    create_segment ctx ev = (ctx1, inr [StopEvent l])
    /\ read_blocks (heap ctx1) l = Some (bs ++ [final])
    /\ choice final = None
    /\ segment final =
         structured_predict FINAL_SEGMENT_GENERATION_TEMPLATE (running_story bs).
Proof.
  intros Hbs Hge.
  destruct (blocks_of_get ctx bs Hbs) as (ctx0 & l & items & Hg & Hu & Hl & Hm).
  assert (Hlen : length items = length bs) by (eapply length_mapM; eassumption).
  set (b := {| id_ := uuid4 (uuids ctx0);
               segment := structured_predict FINAL_SEGMENT_GENERATION_TEMPLATE
                            (running_story bs);
               choice := None |}).
  destruct (heap_after_choice (heap ctx0) l items bs b b Hl Hm)
    as (_ & Hbs1 & _).
  eexists _, l, b. split; [|split; [|split; reflexivity]].
  - unfold StoryRef.create_segment. rewrite Hg. unfold read_blocks.
    rewrite Hl, Hm, Hlen.
    rewrite (proj2 (Z.ltb_ge _ _) Hge). simpl. reflexivity.
  - exact Hbs1.
Qed.

Lemma told_snoc bs b :
  told bs ->
  segment b = structured_predict SEGMENT_GENERATION_TEMPLATE (running_story bs) ->
  told (bs ++ [set_choice (input (human_prompt b)) b]).
Proof.
  intros Ht Hseg i x Hx.
  apply lookup_snoc_Some in Hx as [[Hi Hx]|[-> <-]].
  - rewrite take_app_le by lia. now apply Ht.
  - rewrite take_app_length. split; [reflexivity|exact Hseg].
Qed.

Lemma round_played k (r : Scheduler.Run Event Context nat) :
  between_rounds k r -> Z.of_nat k < max_steps ->
  between_rounds (S k) (Scheduler.sched_step steps (Scheduler.sched_step steps r)).
Proof.
  intros (Hr & (sender & ev & Hq & Hev) & bs & Hbs & Hlen & Ht) Hlt.
  assert (Hroute : Scheduler.route steps sender ev =
                   inr (create_segment_step max_steps structured_predict uuid4)).
  { destruct Hev as [->|[i ->]]; reflexivity. }
  destruct (round_adds_block (Scheduler.store r) ev bs Hbs ltac:(lia))
    as (ctx1 & bl & b & ctx2 & Hc & Hp & Hbs2 & Hseg).
  unfold Scheduler.sched_step at 2. rewrite Hr.
  rewrite (dispatch_returned steps r sender ev [] _ ctx1 _ Hq Hroute Hc).
  unfold Scheduler.sched_step. cbn [Scheduler.result Scheduler.first_stop
    stop_result event_kind option_map].
  erewrite dispatch_returned; [|reflexivity|reflexivity|exact Hp].
  split; [reflexivity|]. split.
  - eexists _, _. split; [reflexivity|]. right. eauto.
  - exists (bs ++ [set_choice (input (human_prompt b)) b]).
    split; [exact Hbs2|]. split.
    + rewrite length_app. simpl. lia.
    + now apply told_snoc.
Qed.

Lemma rounds_played k :
  Z.of_nat k <= Z.max 0 max_steps ->
  between_rounds k
    (Scheduler.run_steps steps (2 * k)
       (StoryRun.run)).
Proof.
  induction k as [|k IH]; intros Hk.
  - split; [reflexivity|]. split.
    + exists None, StartEvent. split; [reflexivity|now left].
    + exists []. split; [reflexivity|]. split; [reflexivity|].
      intros i b Hb. discriminate.
  - replace (2 * S k)%nat with (S (S (2 * k))) by lia.
    apply round_played; [apply IH|]; lia.
Qed.

(** X6.  A run of the story workflow that is neither timed out nor
    cancelled stops after [max_steps] rounds and one closing invocation of
    [create_segment].  Its result is a list of [max_steps + 1] blocks: each
    of the first [max_steps] carries the answer the reader gave to its own
    prompt and a segment generated from the blocks before it, choices
    included; the last one is the closing block, generated from all of them
    with the closing template, and has no choice. *)
Theorem story_is_told_in_max_steps_rounds :
  let r := Scheduler.run_steps steps (2 * Z.to_nat max_steps + 1) StoryRun.run in
  exists l bs final,
    Scheduler.result r = Some (Stopped l)
    /\ read_blocks (heap (Scheduler.store r)) l = Some (bs ++ [final])
    /\ length bs = Z.to_nat max_steps
    /\ told bs
    /\ choice final = None
    /\ segment final =
         structured_predict FINAL_SEGMENT_GENERATION_TEMPLATE (running_story bs).
Proof.
  cbv zeta. rewrite Nat.add_1_r.
  change (Scheduler.run_steps steps (S (2 * Z.to_nat max_steps)) StoryRun.run)
    with (Scheduler.sched_step steps
            (Scheduler.run_steps steps (2 * Z.to_nat max_steps) StoryRun.run)).
  destruct (rounds_played (Z.to_nat max_steps) ltac:(lia))
    as (Hr & (sender & ev & Hq & Hev) & bs & Hbs & Hlen & Ht).
  set (r := Scheduler.run_steps steps (2 * Z.to_nat max_steps) StoryRun.run) in *.
  assert (Hroute : Scheduler.route steps sender ev =
                   inr (create_segment_step max_steps structured_predict uuid4)).
  { destruct Hev as [->|[i ->]]; reflexivity. }
  destruct (last_round_stops (Scheduler.store r) ev bs Hbs ltac:(lia))
    as (ctx1 & l & final & Hc & Hread & Hch & Hseg).
  unfold Scheduler.sched_step. rewrite Hr.
  rewrite (dispatch_returned steps r sender ev [] _ ctx1 _ Hq Hroute Hc).
  exists l, bs, final. simpl.
  split; [reflexivity|]. split; [exact Hread|]. split; [exact Hlen|].
  split; [exact Ht|]. split; assumption.
Qed.

End story_runs.

Section story_failures.
Variable input : string -> string.
Import Story StoryRef.

(** X7.  With an empty list under "blocks", [prompt_human] raises
    [IndexError] at [blocks[-1] = block], that is, after the choice has
    been written: the store and the list are unchanged and no event is
    returned, but the block of the event already carries the choice. *)
Theorem prompt_human_fails_after_writing ctx bl b l :
  read_block (heap ctx) bl = Some b ->
  store ctx !! "blocks" = Some l ->
  read_list (heap ctx) l = Some [] ->
  exists ctx',
    StoryRef.prompt_human input ctx (NewBlockEvent bl) =
      (ctx', inl (PythonError "IndexError"))
    /\ store ctx' = store ctx
    /\ read_list (heap ctx') l = Some []
    /\ read_block (heap ctx') bl =
         Some {| id_ := id_ b; segment := segment b;
                 choice := Some (input (human_prompt b)) |}
    /\ view (heap ctx') (NewBlockEvent bl) =
         Some (StoryValue.NewBlockEvent
                 {| id_ := id_ b; segment := segment b;
                    choice := Some (input (human_prompt b)) |}).
Proof.
  intros Hb Hs Hl. unfold StoryRef.prompt_human. rewrite Hb, Hs.
  assert (Hne : l <> bl).
  { intros ->. eapply block_is_not_list; eauto. }
  rewrite read_list_insert_ne by assumption. rewrite Hl.
  eexists. split; [reflexivity|]. simpl. split; [reflexivity|].
  assert (Hb' : read_block (<[bl := OBlock (set_choice (input (human_prompt b)) b)]>
                              (heap ctx)) bl =
                Some {| id_ := id_ b; segment := segment b;
                        choice := Some (input (human_prompt b)) |}).
  { apply (read_block_insert_eq (heap ctx) bl (set_choice (input (human_prompt b)) b)).
    eapply read_block_lt; eassumption. }
  split; [now rewrite read_list_insert_ne|].
  split; [exact Hb'|]. now rewrite Hb'.
Qed.

End story_failures.

Section tool_facts.
Import MultiAgent AgentTools.

(** The side the store takes when the body of a scope raises. *)
Variable on_raise : exit_policy.

Local Abbreviation scoped_edit := (MultiAgent.scoped_edit on_raise).
Local Abbreviation record_notes := (MultiAgent.record_notes on_raise).
Local Abbreviation write_report := (MultiAgent.write_report on_raise).
Local Abbreviation review_report := (MultiAgent.review_report on_raise).
Local Abbreviation call := (AgentTools.call on_raise).
Local Abbreviation call_all := (AgentTools.call_all on_raise).

Lemma tool_result_returns msg (st : State) :
  tool_result msg (st, Returns tt) = (st, Returns msg).
Proof. reflexivity. Qed.

(** X8.  [record_notes] on a state that holds a dictionary of notes puts
    the note under its title, replacing an earlier note of that title, and
    changes nothing else: the other notes, the other entries of the state
    and the other keys of the store are as before. *)
Theorem record_notes_changes_one_note (st : State) state d notes notes_title :
  st !! "state" = Some state ->
  state !! "research_notes" = Some (Notes d) ->
  let st' := fst (record_notes notes notes_title st) in
  snd (record_notes notes notes_title st) = Returns "Notes recorded."
  /\ (exists d',
        get_state "research_notes" st' = Some (Notes d')
        /\ d' !! notes_title = Some notes
        /\ forall t, t <> notes_title -> d' !! t = d !! t)
  /\ (forall k, k <> "research_notes" -> get_state k st' = get_state k st)
  /\ (forall key, key <> "state" -> st' !! key = st !! key).
Proof.
  intros Hs Hn.
  assert (Hscope : record_notes_scope notes notes_title state =
                   (<["research_notes" := Notes (<[notes_title := notes]> d)]> state,
                    Returns tt)).
  { unfold record_notes_scope. now rewrite Hn, Hn. }
  unfold MultiAgent.record_notes.
  rewrite (scoped_edit_returns on_raise st "state" state _ _ _ Hs Hscope).
  cbv zeta. simpl. split; [reflexivity|]. split; [|split].
  - exists (<[notes_title := notes]> d). unfold get_state.
    rewrite !lookup_insert_eq. split; [reflexivity|].
    split; [reflexivity|]. intros t Ht. now rewrite lookup_insert_ne.
  - intros k Hk. unfold get_state. rewrite lookup_insert_eq, Hs.
    now rewrite lookup_insert_ne.
  - intros key Hkey. now rewrite lookup_insert_ne.
Qed.

(** X9.  When "research_notes" holds a text instead of a dictionary,
    [record_notes] raises [TypeError] and leaves the store exactly as it
    was: no note is recorded and no entry is replaced. *)
Theorem record_notes_on_text_raises (st : State) state s notes notes_title :
  st !! "state" = Some state ->
  state !! "research_notes" = Some (Text s) ->
  record_notes notes notes_title st = (st, Raises (PythonError "TypeError")).
Proof.
  intros Hs Hn.
  assert (Hscope : record_notes_scope notes notes_title state =
                   (state, Raises (PythonError "TypeError"))).
  { unfold record_notes_scope. now rewrite Hn, Hn. }
  unfold MultiAgent.record_notes.
  rewrite (scoped_edit_raises on_raise st "state" state _ _ _ Hs Hscope). simpl.
  destruct on_raise; [now rewrite insert_id|reflexivity].
Qed.

Lemma set_item_tool msg key v (st : State) state :
  st !! "state" = Some state ->
  tool_result msg (scoped_edit "state" (set_item key v) st) =
    (<["state" := <[key := v]> state]> st, Returns msg).
Proof.
  intros Hs.
  now rewrite (scoped_edit_returns on_raise st "state" state _ _ _ Hs eq_refl).
Qed.

(** X10.  [write_report] writes the entry "report_content" and
    [review_report] the entry "review", and neither touches anything else.
    The two calls give the same store in either order, and of two reports
    written one after the other the store is as if only the second had
    been written.  On a store that holds the state, after the two calls the
    state holds the report and the review that were given and every other
    entry as before; [write_report] alone leaves the review, and
    [review_report] alone leaves the report, as they were; and after two
    reports the state holds the second one. *)
Theorem report_and_review_are_independent (st : State) report_content review first :
  (fst (review_report review (fst (write_report report_content st))) =
     fst (write_report report_content (fst (review_report review st)))
   /\ fst (write_report report_content (fst (write_report first st))) =
        fst (write_report report_content st))
  /\ (forall state, st !! "state" = Some state ->
      let st' := fst (review_report review (fst (write_report report_content st))) in
      snd (write_report report_content st) = Returns "Report written."
      /\ snd (review_report review (fst (write_report report_content st)))
           = Returns "Report reviewed."
      /\ get_state "report_content" st' = Some (Text report_content)
      /\ get_state "review" st' = Some (Text review)
      /\ (forall k, k <> "report_content" -> k <> "review" ->
            get_state k st' = get_state k st)
      /\ (forall key, key <> "state" -> st' !! key = st !! key)
      /\ get_state "report_content" (fst (write_report report_content st))
           = Some (Text report_content)
      /\ get_state "review" (fst (write_report report_content st))
           = get_state "review" st
      /\ get_state "review" (fst (review_report review st)) = Some (Text review)
      /\ get_state "report_content" (fst (review_report review st))
           = get_state "report_content" st
      /\ get_state "report_content"
           (fst (write_report report_content (fst (write_report first st))))
           = Some (Text report_content)).
Proof.
  split.
  - unfold MultiAgent.write_report, MultiAgent.review_report,
      MultiAgent.scoped_edit, edit_state, enter, commit, discard, set_item.
    destruct (st !! "state") as [state|] eqn:Hs; simpl.
    + rewrite !lookup_insert_eq. simpl. rewrite !insert_insert_eq.
      split; [|reflexivity]. f_equal. now apply insert_insert_ne.
    + destruct on_raise; simpl; rewrite !Hs; destruct on_raise; now split.
  - intros state Hs. cbv zeta.
    unfold MultiAgent.write_report, MultiAgent.review_report.
    rewrite !(set_item_tool _ _ _ st state Hs). cbn [fst snd].
    rewrite !(set_item_tool _ _ _ (<["state" := _]> st) _ (lookup_insert_eq _ _ _)).
    cbn [fst snd]. unfold get_state. rewrite !lookup_insert_eq, !Hs.
    split; [reflexivity|]. split; [reflexivity|].
    split; [now rewrite lookup_insert_ne, lookup_insert_eq|].
    split; [reflexivity|].
    split; [intros k Hk1 Hk2; now rewrite !lookup_insert_ne|].
    split; [intros key Hkey; now rewrite !lookup_insert_ne|].
    split; [reflexivity|].
    split; [now rewrite lookup_insert_ne|].
    split; [reflexivity|].
    split; [now rewrite lookup_insert_ne|reflexivity].
Qed.

(** The three entries the workflow starts with stay of their kind. *)
Lemma call_keeps_shape c (st : State) state d report review :
  st !! "state" = Some state ->
  state !! "research_notes" = Some (Notes d) ->
  state !! "report_content" = Some (Text report) ->
  state !! "review" = Some (Text review) ->
  exists state',
    call c st = (<["state" := state']> st, message c)
    /\ state' !! "research_notes" = Some (Notes (notes_after [c] d))
    /\ state' !! "report_content" = Some (Text (report_after [c] report))
    /\ state' !! "review" = Some (Text (review_after [c] review)).
Proof.
  intros Hs Hn Hr Hv. destruct c as [notes title|content|rv]; simpl.
  - assert (Hscope : record_notes_scope notes title state =
                     (<["research_notes" := Notes (<[title := notes]> d)]> state,
                      Returns tt)).
    { unfold record_notes_scope. now rewrite Hn, Hn. }
    unfold MultiAgent.record_notes.
    rewrite (scoped_edit_returns on_raise st "state" state _ _ _ Hs Hscope). simpl.
    eexists. split; [reflexivity|].
    rewrite lookup_insert_eq, !lookup_insert_ne by discriminate. now repeat split.
  - unfold MultiAgent.write_report. rewrite (set_item_tool _ _ _ st state Hs).
    eexists. split; [reflexivity|].
    rewrite lookup_insert_eq, !lookup_insert_ne by discriminate. now repeat split.
  - unfold MultiAgent.review_report. rewrite (set_item_tool _ _ _ st state Hs).
    eexists. split; [reflexivity|].
    rewrite lookup_insert_eq, !lookup_insert_ne by discriminate. now repeat split.
Qed.

Lemma call_all_keeps_shape cs : forall (st : State) state d report review,
  st !! "state" = Some state ->
  state !! "research_notes" = Some (Notes d) ->
  state !! "report_content" = Some (Text report) ->
  state !! "review" = Some (Text review) ->
  snd (call_all cs st) = List.map message cs
  /\ get_state "research_notes" (fst (call_all cs st)) = Some (Notes (notes_after cs d))
  /\ get_state "report_content" (fst (call_all cs st))
       = Some (Text (report_after cs report))
  /\ get_state "review" (fst (call_all cs st)) = Some (Text (review_after cs review)).
Proof.
  induction cs as [|c cs IH]; intros st state d report review Hs Hn Hr Hv.
  - simpl. unfold get_state. rewrite Hs. now repeat split.
  - destruct (call_keeps_shape c st state d report review Hs Hn Hr Hv)
      as (state' & Hc & Hn' & Hr' & Hv').
    simpl call_all. rewrite Hc.
    specialize (IH (<["state" := state']> st) state' _ _ _
                  (lookup_insert_eq _ _ _) Hn' Hr' Hv').
    destruct (call_all cs (<["state" := state']> st)) as [st' outs].
    simpl in *. destruct IH as (Ho & Hn2 & Hr2 & Hv2).
    split; [now rewrite Ho|]. split; [|split].
    + rewrite Hn2. now destruct c.
    + rewrite Hr2. now destruct c.
    + rewrite Hv2. now destruct c.
Qed.

(** X11.  From the initial state of the notebook no sequence of calls of
    [record_notes], [write_report] and [review_report] ever raises: each
    call returns its message, and afterwards the state holds the notes as
    last recorded under each title, the last report written (or "Not
    written yet.") and the last review (or "Review required."). *)
Theorem tool_calls_never_fail cs :
  snd (call_all cs initial_state) = List.map message cs
  /\ get_state "research_notes" (fst (call_all cs initial_state))
       = Some (Notes (notes_after cs ∅))
  /\ get_state "report_content" (fst (call_all cs initial_state))
       = Some (Text (report_after cs "Not written yet."))
  /\ get_state "review" (fst (call_all cs initial_state))
       = Some (Text (review_after cs "Review required.")).
Proof.
  apply (call_all_keeps_shape cs initial_state
           {[ "research_notes" := Notes ∅;
              "report_content" := Text "Not written yet.";
              "review" := Text "Review required." ]});
    reflexivity.
Qed.

End tool_facts.

Section stream_facts.
Import Stream.

Lemma announced_print_event k : announced (print_event k) = [].
Proof.
  destruct k as [content tool_calls| | |]; try reflexivity.
  unfold print_event, announced. rewrite omap_app.
  destruct (negb (String.eqb content "")), tool_calls; reflexivity.
Qed.

Lemma stream_events_snoc events ev :
  stream_events (events ++ [ev]) = on_event (stream_events events) ev.
Proof. unfold stream_events. now rewrite fold_left_app. Qed.

(** The current agent is the one of the last banner and of the last event
    that names an agent, and neighbouring banners differ. *)
Lemma stream_invariant events :
  let '(current_agent, out) := stream_events events in
  current_agent = last (announced out)
  /\ current_agent = last (omap current_agent_name events)
  /\ forall i a b,
       announced out !! i = Some a -> announced out !! S i = Some b -> a <> b.
Proof.
  induction events as [|ev events IH] using rev_ind.
  - simpl. repeat split. intros i a b Ha. discriminate.
  - rewrite stream_events_snoc.
    destruct (stream_events events) as [cur out]. destruct IH as (Hl & Hn & Hd).
    unfold on_event. rewrite omap_app. simpl.
    destruct (current_agent_name ev) as [agent|] eqn:Hev; simpl.
    + destruct (decide (Some agent = cur)) as [Heq|Hne].
      * unfold announced in *. rewrite omap_app.
        fold (announced (print_event (event_kind ev))).
        rewrite announced_print_event, app_nil_r.
        split; [assumption|]. split; [|assumption].
        rewrite last_snoc. now symmetry.
      * unfold announced in *. rewrite omap_app. simpl.
        rewrite !last_snoc. split; [reflexivity|]. split; [reflexivity|].
        intros i a b Ha Hb.
        apply lookup_snoc_Some in Hb as [[Hi Hb]|[Hi <-]].
        -- rewrite lookup_app_l in Ha by lia. now apply (Hd i).
        -- rewrite lookup_app_l in Ha by lia.
           intros ->. apply Hne. rewrite Hl. rewrite last_lookup.
           rewrite <- Hi. simpl. now symmetry.
    + unfold announced in *. rewrite omap_app.
      fold (announced (print_event (event_kind ev))).
      rewrite announced_print_event, !app_nil_r. now repeat split.
Qed.

(** X12.  The loop that prints the stream announces an agent exactly when
    an event names an agent other than the current one: two banners in a
    row never name the same agent, and after the loop [current_agent] is
    the agent of the last banner and of the last event that named one.  An
    event that brings a banner prints nothing else, whatever its class. *)
Theorem banners_follow_the_agent events :
  (forall i a b,
      announced (snd (stream_events events)) !! i = Some a ->
      announced (snd (stream_events events)) !! S i = Some b -> a <> b)
  /\ fst (stream_events events) = last (announced (snd (stream_events events)))
  /\ fst (stream_events events) = last (omap current_agent_name events)
  /\ forall ev agent,
       current_agent_name ev = Some agent ->
       fst (stream_events events) <> Some agent ->
       stream_events (events ++ [ev]) =
         (Some agent, snd (stream_events events) ++ [Banner agent]).
Proof.
  pose proof (stream_invariant events) as Hinv.
  destruct (stream_events events) as [cur out] eqn:Hs.
  destruct Hinv as (Hl & Hn & Hd). simpl.
  split; [exact Hd|]. split; [exact Hl|]. split; [exact Hn|].
  intros ev agent Hev Hne.
  rewrite stream_events_snoc, Hs. unfold on_event. rewrite Hev.
  destruct (decide (Some agent = cur)) as [Heq|_]; [|reflexivity].
  now destruct Hne.
Qed.

End stream_facts.

(** *** Examples for the further properties *)

Lemma run_outcome_witness :
  ReflectionRun.expected_outcome Reflection.sample_validator
    (Stopped Reflection.empty_collection).
Proof.
  apply (run_outcome_is_expected 3 (Reflection.sample_llm 1)
           Reflection.sample_validator "" Reflection.sample_kwargs
           120 (fun _ => Scheduler.Elapse 0) 4).
  vm_compute. reflexivity.
Defined.

Lemma run_ends_witness :
  exists o,
    Scheduler.result
      (Scheduler.run_steps
         (Reflection.steps 3 (Reflection.sample_llm 5)
            Reflection.sample_validator "")
         7 (Reflection.run Reflection.sample_kwargs)) = Some o.
Proof.
  apply (run_ends_within_ceiling 3 (Reflection.sample_llm 5)
           Reflection.sample_validator "" Reflection.sample_kwargs 7).
  vm_compute. lia.
Defined.

Lemma nonpositive_ceiling_witness :
  let r := Scheduler.run_steps
             (Reflection.steps 0 (Reflection.sample_llm 0)
                Reflection.sample_validator "")
             1 (Reflection.run Reflection.sample_kwargs) in
  Scheduler.result r = Some (Stopped "Max retries reached")
  /\ Scheduler.store r = Reflection.empty_context
  /\ Scheduler.log r =
       [("extract", Reflection.StartEvent Reflection.sample_kwargs,
         inr [Reflection.StopEvent "Max retries reached"])].
Proof.
  apply (nonpositive_ceiling_stops_at_once 0 (Reflection.sample_llm 0)
           Reflection.sample_validator "" Reflection.sample_kwargs 1); lia.
Defined.

Lemma model_failure_witness :
  let r := Scheduler.run_steps
             (Reflection.steps 3 (ReflectionRun.failing_llm 1)
                Reflection.sample_validator "")
             3 (Reflection.run Reflection.sample_kwargs) in
  Scheduler.result r = Some (Failed ModelError)
  /\ Reflection.store (Scheduler.store r) !! "retries" = Some (Z.of_nat 1 + 1)
  /\ length (Reflection.prompts (Scheduler.store r)) = 2%nat.
Proof.
  apply (model_failure_ends_run 3 (ReflectionRun.failing_llm 1)
           Reflection.sample_validator "" Reflection.sample_kwargs
           "I own two cars: a Fiat Panda with 45Hp and a Honda Civic with 330Hp."
           1%nat 3%nat).
  - reflexivity.
  - discriminate.
  - intros j Hj. assert (j = 0%nat) as -> by lia.
    exists "{ cars: ". split; reflexivity.
  - reflexivity.
  - lia.
  - lia.
Defined.

Lemma prompt_human_fails_witness :
  exists ctx',
    StoryRef.prompt_human Story.sample_input StoryRun.orphan_context
      (StoryRef.NewBlockEvent 0) = (ctx', inl (PythonError "IndexError"))
    /\ StoryRef.store ctx' = StoryRef.store StoryRun.orphan_context
    /\ StoryRef.read_list (StoryRef.heap ctx') 1 = Some []
    /\ StoryRef.read_block (StoryRef.heap ctx') 0 =
         Some {| Story.id_ := "block-0";
                 Story.segment :=
                   Story.sample_predict Story.SEGMENT_GENERATION_TEMPLATE "";
                 Story.choice := Some "Follow the map" |}
    /\ StoryRef.view (StoryRef.heap ctx') (StoryRef.NewBlockEvent 0) =
         Some (StoryValue.NewBlockEvent
                 {| Story.id_ := "block-0";
                    Story.segment :=
                      Story.sample_predict Story.SEGMENT_GENERATION_TEMPLATE "";
                    Story.choice := Some "Follow the map" |}).
Proof.
  apply (prompt_human_fails_after_writing Story.sample_input
           StoryRun.orphan_context 0%nat StoryRun.sample_block 1%nat);
    reflexivity.
Defined.

Lemma record_notes_on_text_witness :
  let st : MultiAgent.State :=
    {[ "state" := {[ "research_notes" := MultiAgent.Text "No notes yet." ]} ]} in
  MultiAgent.record_notes MultiAgent.CommitOnRaise
      "ARPANET adopted TCP/IP in 1983." "ARPANET" st =
    (st, MultiAgent.Raises (PythonError "TypeError"))
  /\ MultiAgent.record_notes MultiAgent.DiscardOnRaise
       "ARPANET adopted TCP/IP in 1983." "ARPANET" st =
     (st, MultiAgent.Raises (PythonError "TypeError")).
Proof.
  split.
  - apply (record_notes_on_text_raises MultiAgent.CommitOnRaise
             {[ "state" := {[ "research_notes" := MultiAgent.Text "No notes yet." ]} ]}
             {[ "research_notes" := MultiAgent.Text "No notes yet." ]}
             "No notes yet."); reflexivity.
  - apply (record_notes_on_text_raises MultiAgent.DiscardOnRaise
             {[ "state" := {[ "research_notes" := MultiAgent.Text "No notes yet." ]} ]}
             {[ "research_notes" := MultiAgent.Text "No notes yet." ]}
             "No notes yet."); reflexivity.
Defined.

Lemma record_notes_witness :
  let st' := fst (MultiAgent.record_notes MultiAgent.DiscardOnRaise
                    "ARPANET adopted TCP/IP in 1983." "ARPANET"
                    MultiAgent.initial_state) in
  snd (MultiAgent.record_notes MultiAgent.DiscardOnRaise
         "ARPANET adopted TCP/IP in 1983." "ARPANET"
         MultiAgent.initial_state) = MultiAgent.Returns "Notes recorded."
  /\ (exists d',
        MultiAgent.get_state "research_notes" st' = Some (MultiAgent.Notes d')
        /\ d' !! "ARPANET" = Some "ARPANET adopted TCP/IP in 1983."
        /\ forall t, t <> "ARPANET" -> d' !! t = (∅ : gmap string string) !! t)
  /\ (forall k, k <> "research_notes" ->
        MultiAgent.get_state k st' = MultiAgent.get_state k MultiAgent.initial_state)
  /\ (forall key, key <> "state" -> st' !! key = MultiAgent.initial_state !! key).
Proof.
  apply (record_notes_changes_one_note MultiAgent.DiscardOnRaise
           MultiAgent.initial_state
           {[ "research_notes" := MultiAgent.Notes ∅;
              "report_content" := MultiAgent.Text "Not written yet.";
              "review" := MultiAgent.Text "Review required." ]}
           ∅ "ARPANET adopted TCP/IP in 1983." "ARPANET");
    reflexivity.
Defined.

(** The report and the review written on the initial state of the notebook
    are read back, whichever is written first. *)
Lemma report_and_review_witness :
  let st' :=
    fst (MultiAgent.review_report MultiAgent.DiscardOnRaise "Approved."
           (fst (MultiAgent.write_report MultiAgent.DiscardOnRaise
                   "The internet grew out of ARPANET." MultiAgent.initial_state))) in
  st' = fst (MultiAgent.write_report MultiAgent.DiscardOnRaise
               "The internet grew out of ARPANET."
               (fst (MultiAgent.review_report MultiAgent.DiscardOnRaise "Approved."
                       MultiAgent.initial_state)))
  /\ MultiAgent.get_state "report_content" st'
       = Some (MultiAgent.Text "The internet grew out of ARPANET.")
  /\ MultiAgent.get_state "review" st' = Some (MultiAgent.Text "Approved.")
  /\ MultiAgent.get_state "research_notes" st' = Some (MultiAgent.Notes ∅).
Proof.
  pose proof (report_and_review_are_independent MultiAgent.DiscardOnRaise
                MultiAgent.initial_state "The internet grew out of ARPANET."
                "Approved." "Not written yet.") as [[Horder _] Hread].
  destruct (Hread _ eq_refl) as (_ & _ & Hreport & Hreview & Hrest & _).
  cbv zeta. split; [exact Horder|]. split; [exact Hreport|].
  split; [exact Hreview|].
  now rewrite (Hrest "research_notes") by discriminate.
Defined.

Section reflection_prompts.
Variable max_retries : Z.
Variable acomplete : nat -> string -> option string.
Variable model_validate_json : string -> string + Reflection.CarCollection.
Variable schema_json : string.

Import Reflection.

Local Abbreviation extract := (Reflection.extract max_retries acomplete schema_json).
Local Abbreviation validate := (Reflection.validate model_validate_json).
Local Abbreviation steps :=
  (Reflection.steps max_retries acomplete model_validate_json schema_json).
Local Abbreviation justified := (ReflectionRun.justified model_validate_json).
Local Abbreviation well_formed_prompt :=
  (ReflectionRun.well_formed_prompt model_validate_json schema_json).

(** What an invocation of [extract] on a justified event does to the
    prompts, and what it returns. *)
Lemma extract_effect kwargs ctx ev ctx' ret :
  justified kwargs ev ->
  (exists kw, ev = StartEvent kw) \/ (exists e o p, ev = ValidationErrorEvent e o p) ->
  extract ctx ev = (ctx', ret) ->
  (prompts ctx' = prompts ctx
   \/ exists prompt,
        prompts ctx' = prompts ctx ++ [prompt] /\ well_formed_prompt kwargs prompt)
  /\ forall outs, ret = inr outs -> Forall (justified kwargs) outs.
Proof.
  intros Hj Hev.
  destruct (Z.le_gt_cases max_retries (get_retries ctx)) as [Hle|Hlt].
  { rewrite (extract_at_ceiling _ _ _ _ _ Hle). intros He. inversion He; subst.
    split; [now left|]. intros outs Ho. inversion Ho. now repeat constructor. }
  rewrite (extract_below_ceiling _ _ _ _ _ Hlt). cbv zeta.
  destruct Hev as [[kw ->]|(e & o & p & ->)]; simpl in Hj.
  - subst kw. destruct (kwargs !! "passage") as [p|] eqn:Hp; simpl.
    + destruct (negb (String.eqb p "")).
      * rewrite complete_spec. simpl. intros He. inversion He; subst. simpl.
        split.
        -- right. eexists. split; [reflexivity|]. exists p. split; [assumption|].
           now left.
        -- intros outs Ho. destruct (acomplete _ _); inversion Ho.
           now repeat constructor.
      * intros He. inversion He; subst. split; [now left|].
        intros outs Ho. inversion Ho. now repeat constructor.
    + intros He. inversion He; subst. split; [now left|].
      intros outs Ho. inversion Ho. now repeat constructor.
  - destruct Hj as [Hp Hv].
    rewrite complete_spec, reflection_prompt_nonempty. simpl.
    intros He. inversion He; subst. simpl. split.
    + right. eexists. split; [reflexivity|]. exists p. split; [assumption|].
      right. now exists o, e.
    + intros outs Ho. destruct (acomplete _ _); inversion Ho.
      now repeat constructor.
Qed.

Lemma validate_effect kwargs ctx o p ctx' ret :
  justified kwargs (ExtractionDone o p) ->
  validate ctx (ExtractionDone o p) = (ctx', ret) ->
  ctx' = ctx /\ forall outs, ret = inr outs -> Forall (justified kwargs) outs.
Proof.
  simpl. intros Hp. unfold Reflection.validate.
  destruct (model_validate_json o) as [e|cars] eqn:Hv; intros He;
    inversion He; subst; (split; [reflexivity|]); intros outs Ho;
    inversion Ho; now repeat constructor.
Qed.

Lemma justified_invariant kwargs timeout sigs n :
  let r := Scheduler.run_ticks steps timeout sigs n (run kwargs) in
  Scheduler.fifo r
  /\ Forall (justified kwargs) (Scheduler.arrived r)
  /\ Forall (well_formed_prompt kwargs) (prompts (Scheduler.store r)).
Proof.
  apply (run_invariant steps
    (fun r => Scheduler.fifo r
              /\ Forall (justified kwargs) (Scheduler.arrived r)
              /\ Forall (well_formed_prompt kwargs) (prompts (Scheduler.store r)))).
  - intros r Hr (Hf & Ha & Hp). split; [now apply fifo_dispatch|].
    destruct (dispatch_cases steps r) as [[_ ->]|[(s & e & q & x & Hqr & Hroute & ->)
      |[(s & e & q & x & st & y & Hqr & Hroute & Hb & ->)
      |(s & e & q & x & st & y & Hqr & Hroute & Hb & ->)]]]; simpl;
      try (split; assumption).
    + pose proof (in_queue_arrived r s e q Hf Hqr) as Hin.
      assert (Hje : justified kwargs e).
      { rewrite List.Forall_forall in Ha. now apply Ha. }
      split; [assumption|].
      destruct e as [kw|res|o p|e o p]; cbn in Hroute; inversion Hroute; subst;
        cbn [Scheduler.body Reflection.extract_step Reflection.validate_step] in Hb.
      * destruct (extract_effect kwargs _ _ _ _ Hje ltac:(left; eauto) Hb)
          as [[->|(pr & -> & Hw)] _]; [assumption|].
        apply Forall_app. split; [assumption|now repeat constructor].
      * now destruct (validate_effect kwargs _ _ _ _ _ Hje Hb) as [-> _].
      * destruct (extract_effect kwargs _ _ _ _ Hje ltac:(right; eauto) Hb)
          as [[->|(pr & -> & Hw)] _]; [assumption|].
        apply Forall_app. split; [assumption|now repeat constructor].
    + pose proof (in_queue_arrived r s e q Hf Hqr) as Hin.
      assert (Hje : justified kwargs e).
      { rewrite List.Forall_forall in Ha. now apply Ha. }
      destruct e as [kw|res|o p|e o p]; cbn in Hroute; inversion Hroute; subst;
        cbn [Scheduler.body Reflection.extract_step Reflection.validate_step] in Hb.
      * destruct (extract_effect kwargs _ _ _ _ Hje ltac:(left; eauto) Hb)
          as [Hpr Houts]. split.
        -- apply Forall_app. split; [assumption|now apply Houts].
        -- destruct Hpr as [->|(pr & -> & Hw)]; [assumption|].
           apply Forall_app. split; [assumption|now repeat constructor].
      * destruct (validate_effect kwargs _ _ _ _ _ Hje Hb) as [-> Houts].
        split; [|assumption].
        apply Forall_app. split; [assumption|now apply Houts].
      * destruct (extract_effect kwargs _ _ _ _ Hje ltac:(right; eauto) Hb)
          as [Hpr Houts]. split.
        -- apply Forall_app. split; [assumption|now apply Houts].
        -- destruct Hpr as [->|(pr & -> & Hw)]; [assumption|].
           apply Forall_app. split; [assumption|now repeat constructor].
  - now intros r o _.
  - now intros r d.
  - split; [reflexivity|]. split; [now repeat constructor|constructor].
Qed.

(** X2.  Every event of a run is justified: an [ExtractionDone] and a
    [ValidationErrorEvent] carry the passage the caller passed, and a
    [ValidationErrorEvent] carries an output that fails validation together
    with the error it fails with. *)
Theorem events_carry_passage_and_error kwargs timeout sigs n :
  Forall (justified kwargs)
    (Scheduler.arrived (Scheduler.run_ticks steps timeout sigs n (run kwargs))).
Proof. apply (justified_invariant kwargs timeout sigs n). Qed.

(** X13.  Every prompt a run sends to the model is the extraction prompt
    for the passage of the caller and the schema, either alone or followed
    by the reflection prompt; and a reflection always quotes an output that
    failed validation, with the error it failed with. *)
Theorem prompts_quote_rejected_outputs kwargs timeout sigs n :
  Forall (well_formed_prompt kwargs)
    (prompts (Scheduler.store
                (Scheduler.run_ticks steps timeout sigs n (run kwargs)))).
Proof. apply (justified_invariant kwargs timeout sigs n). Qed.

End reflection_prompts.
